(** * Signed/directed GNN models: adjacency derivations and forward passes

    A shallow embedding of
    - [torch_geometric_signed_directed/nn/signed/SiGAT.py]
      (construction-time adjacency derivations, [forward], [loss]) and
    - [torch_geometric_signed_directed/nn/directed/DIGRAC.py]
      ([DIMPA.forward], [DIGRAC.forward]).

    Python [defaultdict(set)] objects are finite maps from node ids to
    finite sets of node ids.  Reading a missing key of a [defaultdict]
    inserts that key with an empty set; the embedding keeps this effect,
    since [get_tri_features] reads the very dictionaries that
    [build_adj_lists] returns.  The insertion order of dictionary keys and
    the iteration order of sets are not represented: a dictionary is a
    [gmap], a set is a [gset], and loops run over [map_to_list] and
    [elements]. *)

From Stdlib Require Reals Lra.
From stdpp Require Import gmap list fin_maps fin_sets.

#[local] Open Scope Z_scope.
#[local] Set Default Proof Using "Type".

(** ** SiGAT *)

Module SiGAT.

(** A [defaultdict(set)] keyed by node id. *)
Abbreviation adj := (gmap Z (gset Z)).

(** [d[k]] on a [defaultdict(set)]: the stored set, or a fresh empty set
    that is also stored under [k]. *)
Definition dd_get (d : adj) (k : Z) : gset Z * adj :=
  match d !! k with
  | Some s => (s, d)
  | None => (∅, <[k := ∅]> d)
  end.

(** [d[k].add(x)]. *)
Definition dd_add (d : adj) (k x : Z) : adj :=
  let '(s, d') := dd_get d k in <[k := {[x]} ∪ s]> d'.

(** What a read of [d[k]] yields, without the insertion. *)
Definition view (d : adj) (k : Z) : gset Z := default ∅ (d !! k).

(** [(a, b)] is an edge of the adjacency dictionary [d]: [b in d[a]]. *)
Definition has_edge (d : adj) (a b : Z) : Prop := b ∈ view d a.

(** The tuple [r_edgelist] of four dictionaries, shared by reference with
    the caller. *)
Record r_edgelist := REdge {
  pos_in_edgelist : adj;
  pos_out_edgelist : adj;
  neg_in_edgelist : adj;
  neg_out_edgelist : adj
}.

(** State monad over [r_edgelist]: every dictionary read may insert. *)
Definition M (A : Type) : Type := r_edgelist → A * r_edgelist.

Definition ret {A} (a : A) : M A := fun r => (a, r).
Definition bind {A B} (m : M A) (f : A → M B) : M B :=
  fun r => let '(a, r') := m r in f a r'.

Notation "'let*' x ':=' m 'in' k" := (bind m (fun x => k))
  (at level 10, x name, m at level 100, k at level 200).

Definition rd_pos_in (k : Z) : M (gset Z) := fun r =>
  let '(s, d) := dd_get (pos_in_edgelist r) k in
  (s, REdge d (pos_out_edgelist r) (neg_in_edgelist r) (neg_out_edgelist r)).
Definition rd_pos_out (k : Z) : M (gset Z) := fun r =>
  let '(s, d) := dd_get (pos_out_edgelist r) k in
  (s, REdge (pos_in_edgelist r) d (neg_in_edgelist r) (neg_out_edgelist r)).
Definition rd_neg_in (k : Z) : M (gset Z) := fun r =>
  let '(s, d) := dd_get (neg_in_edgelist r) k in
  (s, REdge (pos_in_edgelist r) (pos_out_edgelist r) d (neg_out_edgelist r)).
Definition rd_neg_out (k : Z) : M (gset Z) := fun r =>
  let '(s, d) := dd_get (neg_out_edgelist r) k in
  (s, REdge (pos_in_edgelist r) (pos_out_edgelist r) (neg_in_edgelist r) d).

(** [len(set(a).intersection(set(b)))], the left operand read first. *)
Definition inter_len (ma mb : M (gset Z)) : M nat :=
  let* a := ma in let* b := mb in ret (size (a ∩ b)).

(** [SiGAT.get_tri_features]: the 16 counts, in the order of the returned
    tuple, and the dictionaries after the reads. *)
Definition get_tri_features (u v : Z) : M (list nat) :=
  let* d1_1 := inter_len (rd_pos_out u) (rd_pos_in v) in
  let* d1_2 := inter_len (rd_pos_out u) (rd_neg_in v) in
  let* d1_3 := inter_len (rd_neg_out u) (rd_pos_in v) in
  let* d1_4 := inter_len (rd_neg_out u) (rd_neg_in v) in
  let* d2_1 := inter_len (rd_pos_out u) (rd_pos_out v) in
  let* d2_2 := inter_len (rd_pos_out u) (rd_neg_out v) in
  let* d2_3 := inter_len (rd_neg_out u) (rd_pos_out v) in
  let* d2_4 := inter_len (rd_neg_out u) (rd_neg_out v) in
  let* d3_1 := inter_len (rd_pos_in u) (rd_pos_out v) in
  let* d3_2 := inter_len (rd_pos_in u) (rd_neg_out v) in
  let* d3_3 := inter_len (rd_neg_in u) (rd_pos_out v) in
  let* d3_4 := inter_len (rd_neg_in u) (rd_neg_out v) in
  let* d4_1 := inter_len (rd_pos_in u) (rd_pos_in v) in
  let* d4_2 := inter_len (rd_pos_in u) (rd_neg_in v) in
  let* d4_3 := inter_len (rd_neg_in u) (rd_pos_in v) in
  let* d4_4 := inter_len (rd_neg_in u) (rd_neg_in v) in
  ret [d1_1; d1_2; d1_3; d1_4; d2_1; d2_2; d2_3; d2_4;
       d3_1; d3_2; d3_3; d3_4; d4_1; d4_2; d4_3; d4_4].

(** The six base dictionaries of [build_adj_lists]. *)
Record base := Base {
  b_pos : adj;      (* pos_edgelist *)
  b_pos_out : adj;  (* pos_out_edgelist *)
  b_pos_in : adj;   (* pos_in_edgelist *)
  b_neg : adj;      (* neg_edgelist *)
  b_neg_out : adj;  (* neg_out_edgelist *)
  b_neg_in : adj    (* neg_in_edgelist *)
}.

Definition base_empty : base := Base ∅ ∅ ∅ ∅ ∅ ∅.

(** A row [node_i, node_j, s] of [edge_index_s]. *)
Definition signed_edge : Type := Z * Z * Z.

(** One pass of the first loop of [build_adj_lists]. *)
Definition base_step (b : base) (e : signed_edge) : base :=
  let '(node_i, node_j, s) := e in
  let b1 :=
    if bool_decide (s > 0) then
      Base (dd_add (dd_add (b_pos b) node_i node_j) node_j node_i)
           (dd_add (b_pos_out b) node_i node_j)
           (dd_add (b_pos_in b) node_j node_i)
           (b_neg b) (b_neg_out b) (b_neg_in b)
    else b in
  if bool_decide (s < 0) then
    Base (b_pos b1) (b_pos_out b1) (b_pos_in b1)
         (dd_add (dd_add (b_neg b1) node_i node_j) node_j node_i)
         (dd_add (b_neg_out b1) node_i node_j)
         (dd_add (b_neg_in b1) node_j node_i)
  else b1.

Definition build_base (edge_index_s : list signed_edge) : base :=
  foldl base_step base_empty edge_index_s.

(** [r_edgelist = (pos_in_edgelist, pos_out_edgelist, neg_in_edgelist,
    neg_out_edgelist)]. *)
Definition r_of_base (b : base) : r_edgelist :=
  REdge (b_pos_in b) (b_pos_out b) (b_neg_in b) (b_neg_out b).

(** [[defaultdict(set) for _ in range(16)]]. *)
Definition fresh_additions : list adj := replicate 16 ∅.

(** [for index, v in enumerate(v_list): if v > 0:
      adj_additions[index][i].add(j)], from position [index] on. *)
Fixpoint mark (v_list : list nat) (index : nat) (i j : Z)
    (adds : list adj) : list adj :=
  match v_list with
  | [] => adds
  | v :: rest =>
      let adds' :=
        if bool_decide (0 < v)%nat
        then alter (fun d => dd_add d i j) index adds
        else adds in
      mark rest (S index) i j adds'
  end.

(** Body of the inner loop for one edge [(i, j)]. *)
Definition tri_step (i : Z) (st : r_edgelist * list adj) (j : Z)
    : r_edgelist * list adj :=
  let '(v_list, r') := get_tri_features i j (st.1) in
  (r', mark v_list 0 i j (st.2)).

(** [for i in adj1: for j in adj1[i]: ...] over the copy [adj1]. *)
Definition tri_loop (adj1 : adj) (st : r_edgelist * list adj)
    : r_edgelist * list adj :=
  foldl (fun st (kv : Z * gset Z) => foldl (tri_step kv.1) st (elements kv.2))
        st (map_to_list adj1).

(** [SiGAT.build_adj_lists]. *)
Definition build_adj_lists (edge_index_s : list signed_edge) : list adj :=
  let b := build_base edge_index_s in
  let adj_additions1 := fresh_additions in
  let adj_additions2 := fresh_additions in
  let r := r_of_base b in
  let adj1 := b_pos_out b in
  let adj2 := b_neg_out b in
  let '(r1, adj_additions1) := tri_loop adj1 (r, adj_additions1) in
  let '(r2, adj_additions2) := tri_loop adj2 (r1, adj_additions2) in
  [b_pos b; pos_out_edgelist r2; pos_in_edgelist r2;
   b_neg b; neg_out_edgelist r2; neg_in_edgelist r2]
  ++ adj_additions1 ++ adj_additions2.

(** *** The model object *)

(** A [2 x E] [LongTensor] of edges, given by its columns. *)
Definition edge_index : Type := list (Z * Z).

(** [edge_index_s[mask][:, :2].t()] for the row mask [p] on the sign
    column. *)
Definition select_edges (p : Z → Prop) `{∀ s, Decision (p s)}
    (edge_index_s : list signed_edge) : edge_index :=
  (fun e : signed_edge => (e.1.1, e.1.2)) <$> filter (fun e : signed_edge => p e.2) edge_index_s.

(** [SiGAT.map_adj_to_edges]. *)
Definition map_adj_to_edges (adj_list : adj) : edge_index :=
  map_to_list adj_list ≫= (fun kv => (fun b => (kv.1, b)) <$> elements kv.2).

(** *** Notions used in the statements and proofs *)

(** Two tuples of dictionaries that answer every read alike. *)
Definition req (r r' : r_edgelist) : Prop :=
  ∀ k, view (pos_in_edgelist r) k = view (pos_in_edgelist r') k
     ∧ view (pos_out_edgelist r) k = view (pos_out_edgelist r') k
     ∧ view (neg_in_edgelist r) k = view (neg_in_edgelist r') k
     ∧ view (neg_out_edgelist r) k = view (neg_out_edgelist r') k.

(** [reads m f]: started in any state that answers like [r0], the
    computation [m] returns [f r0] and ends in such a state. *)
Definition reads {A} (m : M A) (f : r_edgelist → A) : Prop :=
  ∀ r0 r, req r0 r → (m r).1 = f r0 ∧ req r0 (m r).2.

(** The sixteen counts as a function of what the dictionaries answer. *)
Definition tri_counts (r : r_edgelist) (u v : Z) : list nat :=
  let po := view (pos_out_edgelist r) in
  let pi := view (pos_in_edgelist r) in
  let no := view (neg_out_edgelist r) in
  let ni := view (neg_in_edgelist r) in
  [ size (po u ∩ pi v); size (po u ∩ ni v); size (no u ∩ pi v); size (no u ∩ ni v);
    size (po u ∩ po v); size (po u ∩ no v); size (no u ∩ po v); size (no u ∩ no v);
    size (pi u ∩ po v); size (pi u ∩ no v); size (ni u ∩ po v); size (ni u ∩ no v);
    size (pi u ∩ pi v); size (pi u ∩ ni v); size (ni u ∩ pi v); size (ni u ∩ ni v) ].

(** The edges [(i, j)] the nested loop visits. *)
Definition tri_pairs (adj1 : adj) : list (Z * Z) :=
  map_to_list adj1 ≫= (fun kv => (fun j => (kv.1, j)) <$> elements kv.2).

(** The list returned by [build_adj_lists]: six base dictionaries, then the
    derived ones. *)
Definition base_views (adj_lists : list adj) : list adj := take 6 adj_lists.
Definition triad_subsets (adj_lists : list adj) : list adj := drop 6 adj_lists.

(** The blocks [d1] .. [d4] of the tuple of counts, and the exchange of
    the two mixed-sign entries of a block. *)
Definition block (n : nat) (counts : list nat) : list nat :=
  take 4 (drop (4 * n) counts).

Definition swap_mixed (blk : list nat) : list nat :=
  match blk with
  | [same_pos; mixed1; mixed2; same_neg] => [same_pos; mixed2; mixed1; same_neg]
  | _ => blk
  end.

(** A small signed graph: [0 -> 1] and [0 -> 2] positive, [1 -> 2]
    negative, and a row [2 -> 0] of sign 0. *)
Definition demo_edges : list signed_edge :=
  [(0, 1, 1); (1, 2, -1); (0, 2, 1); (2, 0, 0)].

(** The dictionary [d] after reads of the keys in [K]: missing keys are
    bound to an empty set, bound keys keep their set. *)
Definition touch (K : gset Z) (d : adj) : adj := d ∪ gset_to_gmap ∅ K.

Definition touch4 (Kpi Kpo Kni Kno : gset Z) (r : r_edgelist) : r_edgelist :=
  REdge (touch Kpi (pos_in_edgelist r)) (touch Kpo (pos_out_edgelist r))
        (touch Kni (neg_in_edgelist r)) (touch Kno (neg_out_edgelist r)).

(** [touches m Kpi Kpo Kni Kno]: whatever the start, [m] ends in the start
    dictionaries with the given keys read. *)
Definition touches {A} (m : M A) (Kpi Kpo Kni Kno : gset Z) : Prop :=
  ∀ r, (m r).2 = touch4 Kpi Kpo Kni Kno r.

(** The four dictionaries of an [r_edgelist], in the order of the tuple. *)
Definition r_dicts (r : r_edgelist) : list adj :=
  [pos_in_edgelist r; pos_out_edgelist r; neg_in_edgelist r; neg_out_edgelist r].

(** The dictionary holding the edges of one direction and sign. *)
Definition dict_of (incoming negative : bool) (r : r_edgelist) : adj :=
  match incoming, negative with
  | false, false => pos_out_edgelist r
  | true, false => pos_in_edgelist r
  | false, true => neg_out_edgelist r
  | true, true => neg_in_edgelist r
  end.

(** Position [k = 4 * blk + 2 * a + b] of the tuple of counts: block
    [d(blk + 1)], sign [a] on the side of [u], sign [b] on the side of [v]
    (0 positive, 1 negative).  Blocks [d3], [d4] read the in-edges of [u];
    blocks [d1], [d4] read the in-edges of [v]. *)
Definition u_incoming (k : nat) : bool := bool_decide (2 ≤ k / 4)%nat.
Definition v_incoming (k : nat) : bool :=
  bool_decide (k / 4 = 0 ∨ k / 4 = 3)%nat.
Definition u_negative (k : nat) : bool := bool_decide ((k `mod` 4) / 2 = 1)%nat.
Definition v_negative (k : nat) : bool := bool_decide (k `mod` 2 = 1)%nat.

(** No key of [d] is bound to an empty set. *)
Definition no_empty (d : adj) : Prop := ∀ k s, d !! k = Some s → s ≠ ∅.

(** The end points of a list of edges. *)
Definition endpoints (ps : list (Z * Z)) : gset Z :=
  list_to_set (ps ≫= fun p => [p.1; p.2]).

(** The nodes read by the two triad loops: the end points of the positive
    and of the negative out-edges. *)
Definition read_nodes (b : base) : gset Z :=
  endpoints (tri_pairs (b_pos_out b)) ∪ endpoints (tri_pairs (b_neg_out b)).

(** The demo graph with its rows in another order, one of them twice, other
    magnitudes and no row of sign 0. *)
Definition demo_edges_shuffled : list signed_edge :=
  [(1, 2, -3); (0, 2, 1); (0, 1, 2); (0, 2, 1)].

(** The rows hold an edge between [u] and [w] of the given direction (as
    seen from [u]) and sign. *)
Definition row_edge (es : list signed_edge) (incoming negative : bool)
    (u w : Z) : Prop :=
  ∃ s, (if incoming then (w, u, s) else (u, w, s)) ∈ es
       ∧ (if negative then s < 0 else s > 0).

Create HintDb reads.
Create HintDb touches.

Section Model.

(** Float tensors and the layers of the graph-learning library are kept
    abstract: [GATConv] and [MLP] stand for the parameters of a layer. *)
Variables (tensor GATConv MLP : Type).
Variable normal_init : nat → nat → tensor.

Record SiGAT := {
  in_dim : nat;
  out_dim : nat;
  node_num : nat;
  pos_edge_index : edge_index;
  neg_edge_index : edge_index;
  x : tensor;
  adj_lists : list adj;
  edge_lists : list edge_index;
  aggs : list GATConv;
  mlp_layer : MLP
}.

(** [SiGAT.__init__]; [new_agg i] and [new_mlp] are the freshly initialised
    layers. *)
Definition init (node_num0 : nat) (edge_index_s : list signed_edge)
    (in_dim0 out_dim0 : nat) (init_emb : option tensor)
    (new_agg : nat → GATConv) (new_mlp : MLP) : SiGAT :=
  let adj_lists0 := build_adj_lists edge_index_s in
  {| in_dim := in_dim0;
     out_dim := out_dim0;
     node_num := node_num0;
     pos_edge_index := select_edges (fun s => s > 0) edge_index_s;
     neg_edge_index := select_edges (fun s => s < 0) edge_index_s;
     x := match init_emb with
          | None => normal_init node_num0 in_dim0
          | Some e => e
          end;
     adj_lists := adj_lists0;
     edge_lists := map_adj_to_edges <$> adj_lists0;
     aggs := new_agg <$> seq 0 (length adj_lists0);
     mlp_layer := new_mlp |}.

End Model.

(** *** Reads of a [defaultdict] *)

Lemma dd_get_fst (d : adj) k : (dd_get d k).1 = view d k.
Proof. unfold dd_get, view. by destruct (d !! k). Qed.

Lemma dd_get_view (d : adj) k k' : view (dd_get d k).2 k' = view d k'.
Proof.
  unfold dd_get, view. destruct (d !! k) eqn:E; [done|]. simpl.
  destruct (decide (k = k')) as [->|]; [by rewrite lookup_insert_eq, E|].
  by rewrite lookup_insert_ne.
Qed.

Lemma dd_add_view (d : adj) k x k' :
  view (dd_add d k x) k' = if decide (k = k') then {[x]} ∪ view d k else view d k'.
Proof.
  unfold dd_add. pose proof (dd_get_fst d k) as Hf.
  pose proof (dd_get_view d k k') as Hv.
  destruct (dd_get d k) as [s d']. simpl in Hf, Hv. subst s.
  unfold view at 1. case_decide as Hk.
  - subst. by rewrite lookup_insert_eq.
  - by rewrite lookup_insert_ne.
Qed.

Lemma has_edge_dd_add (d : adj) k x a b :
  has_edge (dd_add d k x) a b ↔ has_edge d a b ∨ (a = k ∧ b = x).
Proof.
  unfold has_edge. rewrite dd_add_view. case_decide as Hk; [subst k|]; set_solver.
Qed.

Lemma has_edge_lookup (d : adj) a b :
  has_edge d a b ↔ ∃ s, d !! a = Some s ∧ b ∈ s.
Proof.
  unfold has_edge, view. destruct (d !! a) as [s|]; simpl.
  - split; [eauto|]. by intros (s' & [= <-] & ?).
  - split; [set_solver|]. by intros (? & ? & ?).
Qed.

Lemma has_edge_empty a b : ¬ has_edge ∅ a b.
Proof. unfold has_edge, view. rewrite lookup_empty. set_solver. Qed.

Lemma req_refl r : req r r.
Proof. by intros k. Qed.

Lemma req_trans r1 r2 r3 : req r1 r2 → req r2 r3 → req r1 r3.
Proof.
  intros H1 H2 k. destruct (H1 k) as (?&?&?&?), (H2 k) as (?&?&?&?).
  repeat split; congruence.
Qed.

Lemma reads_rd_pos_in k : reads (rd_pos_in k) (fun r => view (pos_in_edgelist r) k).
Proof.
  intros r0 r H. unfold rd_pos_in.
  pose proof (dd_get_fst (pos_in_edgelist r) k) as Hf.
  pose proof (dd_get_view (pos_in_edgelist r) k) as Hv.
  destruct (dd_get (pos_in_edgelist r) k) as [s d]; simpl in *. split.
  - subst s. symmetry. apply H.
  - intros k'. destruct (H k') as (?&?&?&?). simpl. rewrite Hv. done.
Qed.

Lemma reads_rd_pos_out k : reads (rd_pos_out k) (fun r => view (pos_out_edgelist r) k).
Proof.
  intros r0 r H. unfold rd_pos_out.
  pose proof (dd_get_fst (pos_out_edgelist r) k) as Hf.
  pose proof (dd_get_view (pos_out_edgelist r) k) as Hv.
  destruct (dd_get (pos_out_edgelist r) k) as [s d]; simpl in *. split.
  - subst s. symmetry. apply H.
  - intros k'. destruct (H k') as (?&?&?&?). simpl. rewrite Hv. done.
Qed.

Lemma reads_rd_neg_in k : reads (rd_neg_in k) (fun r => view (neg_in_edgelist r) k).
Proof.
  intros r0 r H. unfold rd_neg_in.
  pose proof (dd_get_fst (neg_in_edgelist r) k) as Hf.
  pose proof (dd_get_view (neg_in_edgelist r) k) as Hv.
  destruct (dd_get (neg_in_edgelist r) k) as [s d]; simpl in *. split.
  - subst s. symmetry. apply H.
  - intros k'. destruct (H k') as (?&?&?&?). simpl. rewrite Hv. done.
Qed.

Lemma reads_rd_neg_out k : reads (rd_neg_out k) (fun r => view (neg_out_edgelist r) k).
Proof.
  intros r0 r H. unfold rd_neg_out.
  pose proof (dd_get_fst (neg_out_edgelist r) k) as Hf.
  pose proof (dd_get_view (neg_out_edgelist r) k) as Hv.
  destruct (dd_get (neg_out_edgelist r) k) as [s d]; simpl in *. split.
  - subst s. symmetry. apply H.
  - intros k'. destruct (H k') as (?&?&?&?). simpl. rewrite Hv. done.
Qed.

Lemma reads_inter_len ma mb fa fb :
  reads ma fa → reads mb fb →
  reads (inter_len ma mb) (fun r => size (fa r ∩ fb r)).
Proof.
  intros Ha Hb r0 r H. unfold inter_len, bind, ret.
  destruct (Ha r0 r H) as [Ea Ra]. destruct (ma r) as [a r1]; simpl in *.
  destruct (Hb r0 r1 Ra) as [Eb Rb]. destruct (mb r1) as [b r2]; simpl in *.
  by subst.
Qed.

Lemma bind_run {A B} (m : M A) (k : A → M B) f r0 r :
  reads m f → req r0 r → ∃ r', req r0 r' ∧ bind m k r = k (f r0) r'.
Proof.
  intros Hm H. unfold bind. destruct (Hm r0 r H) as [E R].
  destruct (m r) as [a r1]; simpl in *. subst. eauto.
Qed.

#[local] Hint Resolve reads_rd_pos_in reads_rd_pos_out reads_rd_neg_in
  reads_rd_neg_out : reads.

Ltac rd_fun m :=
  lazymatch m with
  | rd_pos_in ?k => constr:(fun r => view (pos_in_edgelist r) k)
  | rd_pos_out ?k => constr:(fun r => view (pos_out_edgelist r) k)
  | rd_neg_in ?k => constr:(fun r => view (neg_in_edgelist r) k)
  | rd_neg_out ?k => constr:(fun r => view (neg_out_edgelist r) k)
  end.

Ltac step_inter_len r0 :=
  lazymatch goal with
  | Hr : req r0 ?r |- context [bind (inter_len ?a ?b) ?k ?r] =>
      let fa := rd_fun a in
      let fb := rd_fun b in
      let r' := fresh "r" in
      let Hr' := fresh "Hr" in
      destruct (bind_run (inter_len a b) k (fun x => size (fa x ∩ fb x)) r0 r)
        as (r' & Hr' & ->);
      [ apply reads_inter_len; auto with reads | exact Hr | clear Hr; cbv beta ]
  end.

Lemma get_tri_features_reads u v : reads (get_tri_features u v) (fun r => tri_counts r u v).
Proof.
  intros r0 r H. unfold get_tri_features.
  do 16 step_inter_len r0.
  simpl. split; [reflexivity | assumption].
Qed.

Lemma get_tri_features_counts u v r : (get_tri_features u v r).1 = tri_counts r u v.
Proof. apply (get_tri_features_reads u v r r (req_refl r)). Qed.

Lemma get_tri_features_req u v r : req r (get_tri_features u v r).2.
Proof. apply (get_tri_features_reads u v r r (req_refl r)). Qed.

Lemma tri_counts_req r r' u v : req r r' → tri_counts r u v = tri_counts r' u v.
Proof.
  intros H. unfold tri_counts.
  destruct (H u) as (-> & -> & -> & ->), (H v) as (-> & -> & -> & ->). done.
Qed.

Lemma tri_counts_length r u v : length (tri_counts r u v) = 16%nat.
Proof. done. Qed.

(** *** The marking of the derived subsets *)

Lemma mark_length vl : ∀ idx i j adds, length (mark vl idx i j adds) = length adds.
Proof.
  induction vl as [|v vl IH]; intros idx i j adds; simpl; [done|].
  rewrite IH. case_bool_decide; [apply length_alter | done].
Qed.

Lemma mark_has_edge vl i j : ∀ idx (adds : list adj) k a b,
  (k < length adds)%nat →
  has_edge (mark vl idx i j adds !!! k) a b ↔
  has_edge (adds !!! k) a b
  ∨ (a = i ∧ b = j ∧ (idx ≤ k)%nat ∧ (0 < vl !!! (k - idx)%nat)%nat).
Proof.
  induction vl as [|v vl IH]; intros idx adds k a b Hk; simpl.
  - split; [by left|]. intros [?|(_ & _ & _ & H)]; [done|].
    rewrite lookup_total_nil in H. simpl in H. lia.
  - rewrite IH by (case_bool_decide; [rewrite length_alter|]; done).
    assert (has_edge
              ((if bool_decide (0 < v)%nat
                then alter (fun d => dd_add d i j) idx adds else adds) !!! k) a b
            ↔ has_edge (adds !!! k) a b
              ∨ (a = i ∧ b = j ∧ k = idx ∧ (0 < v)%nat)) as ->.
    { case_bool_decide as Hv.
      - rewrite list_lookup_total_alter. case_decide as Hd.
        + destruct Hd as [<- _]. rewrite has_edge_dd_add. naive_solver.
        + split; [by left|]. intros [?|(_ & _ & -> & _)]; [done|].
          exfalso. apply Hd. done.
      - naive_solver. }
    destruct (decide (k = idx)) as [->|Hne].
    + rewrite Nat.sub_diag. simpl. split.
      * intros [[?|?]|(_ & _ & ? & _)]; [by left|right|lia]. naive_solver.
      * intros [?|(? & ? & _ & ?)]; [by left; left|]. left. right. done.
    + destruct (decide (idx < k)%nat) as [Hlt|Hge].
      * replace (k - idx)%nat with (S (k - S idx)) by lia. simpl.
        split.
        -- intros [[?|(_ & _ & ? & _)]|(? & ? & ? & ?)]; [by left|lia|].
           right. repeat split; [done..|lia|done].
        -- intros [?|(? & ? & ? & ?)]; [by left; left|].
           right. repeat split; [done..|lia|done].
      * split.
        -- intros [[?|(_ & _ & ? & _)]|(_ & _ & ? & _)]; [by left|lia..].
        -- intros [?|(_ & _ & ? & _)]; [by left; left|lia].
Qed.

(** *** The two triad loops *)

Lemma elem_of_tri_pairs (adj1 : adj) a b : (a, b) ∈ tri_pairs adj1 ↔ has_edge adj1 a b.
Proof.
  unfold tri_pairs. rewrite list_elem_of_bind, has_edge_lookup. split.
  - intros ([k s] & Hin & Hkv). simpl in Hin.
    apply list_elem_of_fmap in Hin as (j & [= -> ->] & Hj).
    apply elem_of_map_to_list in Hkv. apply elem_of_elements in Hj. eauto.
  - intros (s & Hs & Hb). exists (a, s). split.
    + simpl. apply list_elem_of_fmap. exists b. by rewrite elem_of_elements.
    + by apply elem_of_map_to_list.
Qed.

Lemma tri_loop_flat (adj1 : adj) st :
  tri_loop adj1 st = foldl (fun st p => tri_step p.1 st p.2) st (tri_pairs adj1).
Proof.
  unfold tri_loop, tri_pairs. revert st.
  induction (map_to_list adj1) as [|[k s] kvs IH]; intros st; simpl; [done|].
  rewrite foldl_app, IH. f_equal.
  generalize (elements s). clear. intros js. revert st.
  induction js as [|j js IH]; intros st; simpl; [done|]. by rewrite IH.
Qed.

Lemma tri_step_spec r0 i j r adds :
  req r0 r →
  ∃ r', req r0 r' ∧ tri_step i (r, adds) j = (r', mark (tri_counts r0 i j) 0 i j adds).
Proof.
  intros H. unfold tri_step. cbn [fst snd].
  destruct (get_tri_features_reads i j r0 r H) as [E R].
  destruct (get_tri_features i j r) as [vl r']. cbn [fst snd] in E, R.
  subst vl. eauto.
Qed.

Lemma tri_fold_spec r0 ps : ∀ r adds,
  req r0 r → length adds = 16%nat →
  let st' := foldl (fun st p => tri_step p.1 st p.2) (r, adds) ps in
  req r0 st'.1 ∧ length st'.2 = 16%nat ∧
  ∀ k a b, (k < 16)%nat →
    has_edge (st'.2 !!! k) a b ↔
    has_edge (adds !!! k) a b ∨ ((a, b) ∈ ps ∧ (0 < tri_counts r0 a b !!! k)%nat).
Proof.
  induction ps as [|[i j] ps IH]; intros r adds Hr Hlen; simpl.
  - split; [done|]. split; [done|]. intros k a b _. split; [by left|].
    intros [?|[H _]]; [done|]. by apply elem_of_nil in H.
  - destruct (tri_step_spec r0 i j r adds Hr) as (r' & Hr' & ->).
    specialize (IH r' (mark (tri_counts r0 i j) 0 i j adds) Hr').
    rewrite mark_length in IH. destruct (IH Hlen) as (H1 & H2 & H3).
    split; [done|]. split; [done|]. intros k a b Hk.
    rewrite H3 by done. rewrite mark_has_edge by lia.
    rewrite Nat.sub_0_r, elem_of_cons. split.
    + intros [[?|(-> & -> & _ & ?)]|[? ?]]; [by left|right..]; auto.
    + intros [?|[[[= -> ->]|?] ?]]; [by left; left| |by right].
      left. right. repeat split; [lia|done].
Qed.

Lemma fresh_additions_empty k a b : ¬ has_edge (fresh_additions !!! k) a b.
Proof.
  unfold fresh_additions. destruct (decide (k < 16)%nat).
  - rewrite lookup_total_replicate_2 by done. apply has_edge_empty.
  - rewrite list_lookup_total_alt, (proj1 (lookup_replicate_None _ _ _)) by lia.
    apply has_edge_empty.
Qed.

Lemma tri_loop_spec (adj1 : adj) r0 r :
  req r0 r →
  let st' := tri_loop adj1 (r, fresh_additions) in
  req r0 st'.1 ∧ length st'.2 = 16%nat ∧
  ∀ k a b, (k < 16)%nat →
    has_edge (st'.2 !!! k) a b ↔
    has_edge adj1 a b ∧ (0 < tri_counts r0 a b !!! k)%nat.
Proof.
  intros Hr. rewrite tri_loop_flat.
  destruct (tri_fold_spec r0 (tri_pairs adj1) r fresh_additions Hr eq_refl)
    as (H1 & H2 & H3).
  split; [done|]. split; [done|]. intros k a b Hk.
  rewrite H3, elem_of_tri_pairs by done. split.
  - intros [H|?]; [|done]. by apply fresh_additions_empty in H.
  - by right.
Qed.

(** *** The base dictionaries *)

Lemma base_step_pos_out b i j s u v :
  has_edge (b_pos_out (base_step b (i, j, s))) u v ↔
  has_edge (b_pos_out b) u v ∨ (u = i ∧ v = j ∧ s > 0).
Proof.
  unfold base_step. repeat case_bool_decide; simpl;
    rewrite ?has_edge_dd_add; naive_solver lia.
Qed.

Lemma base_step_neg_out b i j s u v :
  has_edge (b_neg_out (base_step b (i, j, s))) u v ↔
  has_edge (b_neg_out b) u v ∨ (u = i ∧ v = j ∧ s < 0).
Proof.
  unfold base_step. repeat case_bool_decide; simpl;
    rewrite ?has_edge_dd_add; naive_solver lia.
Qed.

Lemma foldl_base_pos_out es : ∀ b u v,
  has_edge (b_pos_out (foldl base_step b es)) u v ↔
  has_edge (b_pos_out b) u v ∨ ∃ s, (u, v, s) ∈ es ∧ s > 0.
Proof.
  induction es as [|[[i j] s] es IH]; intros b u v; cbn [foldl].
  - split; [by left|]. intros [?|(s & H & _)]; [done|]. by apply elem_of_nil in H.
  - rewrite IH, base_step_pos_out. setoid_rewrite elem_of_cons. naive_solver.
Qed.

Lemma foldl_base_neg_out es : ∀ b u v,
  has_edge (b_neg_out (foldl base_step b es)) u v ↔
  has_edge (b_neg_out b) u v ∨ ∃ s, (u, v, s) ∈ es ∧ s < 0.
Proof.
  induction es as [|[[i j] s] es IH]; intros b u v; cbn [foldl].
  - split; [by left|]. intros [?|(s & H & _)]; [done|]. by apply elem_of_nil in H.
  - rewrite IH, base_step_neg_out. setoid_rewrite elem_of_cons. naive_solver.
Qed.

(** The positive (negative) out-edge dictionary holds exactly the rows of
    positive (negative) sign. *)
Lemma build_base_pos_out es u v :
  has_edge (b_pos_out (build_base es)) u v ↔ ∃ s, (u, v, s) ∈ es ∧ s > 0.
Proof.
  unfold build_base. rewrite foldl_base_pos_out. split; [|by right].
  intros [H|?]; [|done]. by apply has_edge_empty in H.
Qed.

Lemma build_base_neg_out es u v :
  has_edge (b_neg_out (build_base es)) u v ↔ ∃ s, (u, v, s) ∈ es ∧ s < 0.
Proof.
  unfold build_base. rewrite foldl_base_neg_out. split; [|by right].
  intros [H|?]; [|done]. by apply has_edge_empty in H.
Qed.

(** A row of sign 0 leaves every base dictionary as it is. *)
Lemma base_step_zero b i j : base_step b (i, j, 0) = b.
Proof. unfold base_step. simpl. by destruct b. Qed.

Lemma build_base_drop_zero es1 es2 i j :
  build_base (es1 ++ (i, j, 0) :: es2) = build_base (es1 ++ es2).
Proof.
  unfold build_base. rewrite !foldl_app. cbn [foldl]. by rewrite base_step_zero.
Qed.

(** *** Shape of the result of [build_adj_lists] *)

Lemma build_adj_lists_spec es :
  let b := build_base es in
  ∃ r2 adds1 adds2,
    build_adj_lists es =
      [b_pos b; pos_out_edgelist r2; pos_in_edgelist r2;
       b_neg b; neg_out_edgelist r2; neg_in_edgelist r2] ++ adds1 ++ adds2
    ∧ req (r_of_base b) r2
    ∧ length adds1 = 16%nat ∧ length adds2 = 16%nat
    ∧ (∀ k u v, (k < 16)%nat →
         has_edge (adds1 !!! k) u v ↔
         has_edge (b_pos_out b) u v ∧ (0 < tri_counts (r_of_base b) u v !!! k)%nat)
    ∧ (∀ k u v, (k < 16)%nat →
         has_edge (adds2 !!! k) u v ↔
         has_edge (b_neg_out b) u v ∧ (0 < tri_counts (r_of_base b) u v !!! k)%nat).
Proof.
  intros b. unfold build_adj_lists. fold b.
  destruct (tri_loop_spec (b_pos_out b) (r_of_base b) (r_of_base b) (req_refl _))
    as (R1 & L1 & S1).
  destruct (tri_loop (b_pos_out b) (r_of_base b, fresh_additions)) as [r1 adds1].
  cbn [fst snd] in R1, L1, S1.
  destruct (tri_loop_spec (b_neg_out b) (r_of_base b) r1 R1) as (R2 & L2 & S2).
  destruct (tri_loop (b_neg_out b) (r1, fresh_additions)) as [r2 adds2].
  cbn [fst snd] in R2, L2, S2.
  exists r2, adds1, adds2. done.
Qed.

Lemma lookup_total_app_l' (l1 l2 : list adj) k :
  (k < length l1)%nat → (l1 ++ l2) !!! k = l1 !!! k.
Proof. intros H. by rewrite !list_lookup_total_alt, lookup_app_l. Qed.

Lemma lookup_total_app_r' (l1 l2 : list adj) k :
  (l1 ++ l2) !!! (length l1 + k)%nat = l2 !!! k.
Proof.
  rewrite !list_lookup_total_alt, lookup_app_r by lia.
  by replace (length l1 + k - length l1)%nat with k by lia.
Qed.

(** *** The demo graph, evaluated *)

Example select_edges_demo :
  select_edges (fun s => s > 0) demo_edges = [(0, 1); (0, 2)]
  ∧ select_edges (fun s => s < 0) demo_edges = [(1, 2)].
Proof. split; reflexivity. Qed.

Example get_tri_features_demo :
  (get_tri_features 0 1 (r_of_base (build_base demo_edges))).1
  = [0; 0; 0; 0; 0; 1; 0; 0; 0; 0; 0; 0; 0; 0; 0; 0]%nat
  ∧ (get_tri_features 1 0 (r_of_base (build_base demo_edges))).1
  = [0; 0; 0; 0; 0; 0; 1; 0; 0; 0; 0; 0; 0; 0; 0; 0]%nat.
Proof. split; vm_compute; reflexivity. Qed.

(** Positive edge [(0, 2)] lands in derived subset 1 and [(0, 1)] in
    subset 5; negative edge [(1, 2)] in subset 16 + 12. *)
Example build_adj_lists_demo :
  map_adj_to_edges <$> triad_subsets (build_adj_lists demo_edges)
  = [ []; [(0, 2)]; []; []; []; [(0, 1)]; []; []; []; []; []; []; []; []; []; [];
      []; []; []; []; []; []; []; []; []; []; []; []; [(1, 2)]; []; []; [] ].
Proof. vm_compute. reflexivity. Qed.

(** The reads of [get_tri_features] leave empty sets under the keys 1 and 2
    of the positive out-edge dictionary that is returned. *)
Example build_adj_lists_demo_keys :
  dom (b_pos_out (build_base demo_edges)) = {[0]}
  ∧ dom (build_adj_lists demo_edges !!! 1%nat) = {[0; 1; 2]}.
Proof. split; vm_compute; reflexivity. Qed.

(** *** Claims about the adjacency derivations *)

(** C3: the result of [build_adj_lists] carries 32 derived subsets after the
    six base dictionaries.  For [k < 16], the edge [(u, v)] is in derived
    subset [k] of the first sixteen exactly when it is an edge of the
    positive out-edge dictionary and the [k]-th count returned by
    [get_tri_features u v] is positive; the second sixteen are the same over
    the negative out-edge dictionary. *)
Theorem build_adj_lists_triads es k u v :
  (k < 16)%nat →
  let b := build_base es in
  let counts := (get_tri_features u v (r_of_base b)).1 in
  length (triad_subsets (build_adj_lists es)) = 32%nat
  ∧ (has_edge (triad_subsets (build_adj_lists es) !!! k) u v ↔
     has_edge (b_pos_out b) u v ∧ (0 < counts !!! k)%nat)
  ∧ (has_edge (triad_subsets (build_adj_lists es) !!! (16 + k)%nat) u v ↔
     has_edge (b_neg_out b) u v ∧ (0 < counts !!! k)%nat).
Proof.
  intros Hk b counts. unfold counts. rewrite get_tri_features_counts.
  destruct (build_adj_lists_spec es) as (r2 & a1 & a2 & -> & R & L1 & L2 & S1 & S2).
  fold b in R, S1, S2.
  match goal with |- context [triad_subsets (?l ++ a1 ++ a2)] =>
    change (triad_subsets (l ++ a1 ++ a2)) with (a1 ++ a2) end.
  split; [rewrite length_app; lia|]. split.
  - rewrite lookup_total_app_l' by lia. by apply S1.
  - rewrite <- L1, lookup_total_app_r'. by apply S2.
Qed.

Lemma build_adj_lists_triads_witness :
  (5 < 16)%nat ∧
  (has_edge (triad_subsets (build_adj_lists demo_edges) !!! 5%nat) 0 1 ↔
   has_edge (b_pos_out (build_base demo_edges)) 0 1
   ∧ (0 < (get_tri_features 0 1 (r_of_base (build_base demo_edges))).1 !!! 5%nat)%nat).
Proof.
  split; [lia|]. apply (build_adj_lists_triads demo_edges 5%nat 0 1). lia.
Defined.

(** C4, as the code has it: [build_adj_lists] returns 38 dictionaries, the
    six base views (positive, positive-out, positive-in, negative,
    negative-out, negative-in) followed by exactly 32 triad-derived subsets:
    sixteen for the positive out-edges, then sixteen for the negative
    out-edges.  Subset [k] of the first (second) sixteen holds the positive
    (negative) out-edges [(u, v)] whose count [k] of [get_tri_features] is
    positive. *)
Theorem build_adj_lists_views es :
  let b := build_base es in
  let L := build_adj_lists es in
  let counts u v := (get_tri_features u v (r_of_base b)).1 in
  length L = 38%nat
  ∧ length (base_views L) = 6%nat
  ∧ length (triad_subsets L) = 32%nat
  ∧ L = base_views L ++ triad_subsets L
  ∧ L !!! 0%nat = b_pos b
  ∧ L !!! 3%nat = b_neg b
  ∧ (∀ u v, has_edge (L !!! 1%nat) u v ↔ has_edge (b_pos_out b) u v)
  ∧ (∀ u v, has_edge (L !!! 2%nat) u v ↔ has_edge (b_pos_in b) u v)
  ∧ (∀ u v, has_edge (L !!! 4%nat) u v ↔ has_edge (b_neg_out b) u v)
  ∧ (∀ u v, has_edge (L !!! 5%nat) u v ↔ has_edge (b_neg_in b) u v)
  ∧ length (take 16 (triad_subsets L)) = 16%nat
  ∧ length (drop 16 (triad_subsets L)) = 16%nat
  ∧ (∀ k u v, has_edge (take 16 (triad_subsets L) !!! k) u v ↔
       (k < 16)%nat ∧ has_edge (b_pos_out b) u v ∧ (0 < counts u v !!! k)%nat)
  ∧ (∀ k u v, has_edge (drop 16 (triad_subsets L) !!! k) u v ↔
       (k < 16)%nat ∧ has_edge (b_neg_out b) u v ∧ (0 < counts u v !!! k)%nat).
Proof.
  intros b L counts. unfold L, counts.
  destruct (build_adj_lists_spec es) as (r2 & a1 & a2 & -> & R & L1 & L2 & S1 & S2).
  fold b in R, S1, S2.
  match goal with |- context [triad_subsets (?l ++ a1 ++ a2)] =>
    change (triad_subsets (l ++ a1 ++ a2)) with (a1 ++ a2);
    change (base_views (l ++ a1 ++ a2)) with l end.
  assert (take 16 (a1 ++ a2) = a1) as -> by (by rewrite <- L1, take_app_length).
  assert (drop 16 (a1 ++ a2) = a2) as -> by (by rewrite <- L1, drop_app_length).
  assert (∀ (a : list adj) k u v, length a = 16%nat → (16 ≤ k)%nat →
            ¬ has_edge (a !!! k) u v) as Hout.
  { intros a k u v Ha Hk. rewrite list_lookup_total_alt, lookup_ge_None_2 by lia.
    apply has_edge_empty. }
  cbn [app length]. rewrite !length_app, L1, L2.
  split; [done|]. split; [done|]. split; [done|]. split; [done|].
  split; [done|]. split; [done|].
  assert (∀ u v, has_edge (pos_out_edgelist r2) u v ↔ has_edge (b_pos_out b) u v) as E2.
  { intros u v. unfold has_edge. destruct (R u) as (_ & E & _). cbn in E. by rewrite E. }
  assert (∀ u v, has_edge (pos_in_edgelist r2) u v ↔ has_edge (b_pos_in b) u v) as E1.
  { intros u v. unfold has_edge. destruct (R u) as (E & _). cbn in E. by rewrite E. }
  assert (∀ u v, has_edge (neg_out_edgelist r2) u v ↔ has_edge (b_neg_out b) u v) as E4.
  { intros u v. unfold has_edge. destruct (R u) as (_ & _ & _ & E). cbn in E. by rewrite E. }
  assert (∀ u v, has_edge (neg_in_edgelist r2) u v ↔ has_edge (b_neg_in b) u v) as E3.
  { intros u v. unfold has_edge. destruct (R u) as (_ & _ & E & _). cbn in E. by rewrite E. }
  split; [exact E2|]. split; [exact E1|]. split; [exact E4|]. split; [exact E3|].
  split; [done|]. split; [done|]. split.
  - intros k u v. rewrite get_tri_features_counts.
    destruct (decide (k < 16)%nat) as [Hk|Hk].
    + rewrite S1 by done. tauto.
    + split; [|tauto]. intros H. exfalso. apply (Hout a1 k u v); [done|lia|done].
  - intros k u v. rewrite get_tri_features_counts.
    destruct (decide (k < 16)%nat) as [Hk|Hk].
    + rewrite S2 by done. tauto.
    + split; [|tauto]. intros H. exfalso. apply (Hout a2 k u v); [done|lia|done].
Qed.

(** C4, as stated, fails: the derived subsets of the demo graph are not 16
    in number. *)
Lemma build_adj_lists_not_16_triads :
  length (triad_subsets (build_adj_lists demo_edges)) ≠ 16%nat.
Proof. vm_compute. discriminate. Qed.

(** C5: swapping [u] and [v] maps the [d1] block to the [d3] block (and
    back) with the two mixed-sign counts exchanged, and within the [d2] and
    [d4] blocks exchanges the two mixed-sign counts and fixes the two
    same-sign counts.  The counts of the swapped call are the same whether it
    runs on the same dictionaries or after the first call. *)
Theorem get_tri_features_swap r u v :
  let '(uv, r1) := get_tri_features u v r in
  let vu := (get_tri_features v u r).1 in
  (get_tri_features v u r1).1 = vu
  ∧ block 0 uv = swap_mixed (block 2 vu)
  ∧ block 2 uv = swap_mixed (block 0 vu)
  ∧ block 1 uv = swap_mixed (block 1 vu)
  ∧ block 3 uv = swap_mixed (block 3 vu).
Proof.
  pose proof (get_tri_features_counts u v r) as E.
  pose proof (get_tri_features_req u v r) as R.
  destruct (get_tri_features u v r) as [uv r1]. cbn [fst snd] in E, R. subst uv.
  rewrite !get_tri_features_counts, <- (tri_counts_req r r1 v u R).
  split; [done|]. unfold tri_counts, block, swap_mixed. cbn [Nat.mul Nat.add drop take].
  repeat split;
    repeat (apply (f_equal2 cons); [by rewrite (comm_L (∩))|]); reflexivity.
Qed.

(** C10: every derived subset is contained in its base out-edge view, as
    returned in the same list. *)
Theorem triad_subsets_sub_out es k u v :
  (k < 16)%nat →
  let L := build_adj_lists es in
  (has_edge (L !!! (6 + k)%nat) u v → has_edge (L !!! 1%nat) u v)
  ∧ (has_edge (L !!! (22 + k)%nat) u v → has_edge (L !!! 4%nat) u v).
Proof.
  intros Hk L. unfold L.
  destruct (build_adj_lists_spec es) as (r2 & a1 & a2 & -> & R & L1 & L2 & S1 & S2).
  match goal with |- context [(?l ++ a1 ++ a2) !!! 1%nat] =>
    change ((l ++ a1 ++ a2) !!! 1%nat) with (pos_out_edgelist r2);
    change ((l ++ a1 ++ a2) !!! 4%nat) with (neg_out_edgelist r2);
    change ((l ++ a1 ++ a2) !!! (6 + k)%nat) with ((a1 ++ a2) !!! k);
    change ((l ++ a1 ++ a2) !!! (22 + k)%nat) with ((a1 ++ a2) !!! (16 + k)%nat)
  end.
  destruct (R u) as (_ & E2 & _ & E4). cbn in E2, E4. unfold has_edge at 2 4.
  rewrite <- E2, <- E4. split.
  - rewrite lookup_total_app_l' by lia. intros H. by apply S1 in H as [? _].
  - rewrite <- L1, lookup_total_app_r'. intros H. by apply S2 in H as [? _].
Qed.

Lemma triad_subsets_sub_out_witness :
  (5 < 16)%nat ∧
  (has_edge (build_adj_lists demo_edges !!! 11%nat) 0 1 →
   has_edge (build_adj_lists demo_edges !!! 1%nat) 0 1).
Proof.
  split; [lia|]. apply (triad_subsets_sub_out demo_edges 5%nat 0 1). lia.
Defined.

Lemma elem_of_select_edges (p : Z → Prop) `{∀ s, Decision (p s)} es u v :
  (u, v) ∈ select_edges p es ↔ ∃ s, (u, v, s) ∈ es ∧ p s.
Proof.
  unfold select_edges. rewrite list_elem_of_fmap. split.
  - intros ([[a b] s] & [= -> ->] & Hin). apply list_elem_of_filter in Hin as [? ?].
    eauto.
  - intros (s & Hin & Hp). exists (u, v, s). split; [done|].
    by apply list_elem_of_filter.
Qed.

(** C9: a row of sign exactly 0 is dropped everywhere.  Deleting it from
    the input changes neither [pos_edge_index] nor [neg_edge_index] nor any
    dictionary returned by [build_adj_lists], and an edge is in
    [pos_edge_index] ([neg_edge_index]) only through a row of strictly
    positive (negative) sign. *)
Theorem zero_sign_dropped es1 es2 i j :
  let es := es1 ++ (i, j, 0) :: es2 in
  let es' := es1 ++ es2 in
  select_edges (fun s => s > 0) es = select_edges (fun s => s > 0) es'
  ∧ select_edges (fun s => s < 0) es = select_edges (fun s => s < 0) es'
  ∧ build_adj_lists es = build_adj_lists es'
  ∧ (∀ u v, (u, v) ∈ select_edges (fun s => s > 0) es ↔ ∃ s, (u, v, s) ∈ es ∧ s > 0)
  ∧ (∀ u v, (u, v) ∈ select_edges (fun s => s < 0) es ↔ ∃ s, (u, v, s) ∈ es ∧ s < 0).
Proof.
  intros es es'. split; [|split; [|split; [|split]]].
  - unfold es, es', select_edges. rewrite !filter_app, !filter_cons.
    case_decide; simpl in *; [lia|done].
  - unfold es, es', select_edges. rewrite !filter_app, !filter_cons.
    case_decide; simpl in *; [lia|done].
  - unfold es, es', build_adj_lists. by rewrite !build_base_drop_zero.
  - intros u v. apply elem_of_select_edges.
  - intros u v. apply elem_of_select_edges.
Qed.

(** *** What [get_tri_features] does to the dictionaries *)

Lemma lookup_touch K (d : adj) k :
  touch K d !! k =
  match d !! k with
  | Some s => Some s
  | None => if decide (k ∈ K) then Some ∅ else None
  end.
Proof.
  unfold touch. rewrite lookup_union, lookup_gset_to_gmap.
  destruct (d !! k); [by destruct (guard (k ∈ K) ≫= _)|].
  case_decide; [by rewrite option_guard_True|by rewrite option_guard_False].
Qed.

Lemma dd_get_snd (d : adj) k : (dd_get d k).2 = touch {[k]} d.
Proof.
  apply map_eq. intros k'. rewrite lookup_touch. unfold dd_get.
  destruct (d !! k) as [s|] eqn:E; simpl.
  - destruct (d !! k') eqn:E'; [done|]. case_decide as Hk; [|done].
    apply elem_of_singleton in Hk as ->. congruence.
  - destruct (decide (k = k')) as [<-|Hne].
    + rewrite lookup_insert_eq, E. by rewrite decide_True by set_solver.
    + rewrite lookup_insert_ne by done. destruct (d !! k'); [done|].
      by rewrite decide_False by set_solver.
Qed.

Lemma touch_touch K1 K2 (d : adj) : touch K2 (touch K1 d) = touch (K1 ∪ K2) d.
Proof.
  apply map_eq. intros k. rewrite !lookup_touch. destruct (d !! k); [done|].
  repeat case_decide; set_solver.
Qed.

Lemma touch_empty (d : adj) : touch ∅ d = d.
Proof.
  apply map_eq. intros k. rewrite lookup_touch. destruct (d !! k); [done|].
  by rewrite decide_False by set_solver.
Qed.

Lemma dom_touch K (d : adj) : dom (touch K d) = dom d ∪ K.
Proof. unfold touch. by rewrite dom_union_L, dom_gset_to_gmap. Qed.

Lemma touches_ret {A} (a : A) : touches (ret a) ∅ ∅ ∅ ∅.
Proof. intros [? ? ? ?]. unfold touch4. simpl. by rewrite !touch_empty. Qed.

Lemma touches_bind {A B} (m : M A) (f : A → M B) K1 K2 K3 K4 J1 J2 J3 J4 :
  touches m K1 K2 K3 K4 → (∀ a, touches (f a) J1 J2 J3 J4) →
  touches (bind m f) (K1 ∪ J1) (K2 ∪ J2) (K3 ∪ J3) (K4 ∪ J4).
Proof.
  intros Hm Hf r. unfold bind. specialize (Hm r).
  destruct (m r) as [a r1]. cbn [snd] in Hm. subst r1. rewrite Hf.
  unfold touch4. cbn [pos_in_edgelist pos_out_edgelist neg_in_edgelist neg_out_edgelist].
  by rewrite !touch_touch.
Qed.

Lemma touches_rd_pos_in k : touches (rd_pos_in k) {[k]} ∅ ∅ ∅.
Proof.
  intros r. unfold rd_pos_in. pose proof (dd_get_snd (pos_in_edgelist r) k) as E.
  destruct (dd_get (pos_in_edgelist r) k) as [s d]. cbn [snd] in *. subst d.
  unfold touch4. by rewrite !touch_empty.
Qed.

Lemma touches_rd_pos_out k : touches (rd_pos_out k) ∅ {[k]} ∅ ∅.
Proof.
  intros r. unfold rd_pos_out. pose proof (dd_get_snd (pos_out_edgelist r) k) as E.
  destruct (dd_get (pos_out_edgelist r) k) as [s d]. cbn [snd] in *. subst d.
  unfold touch4. by rewrite !touch_empty.
Qed.

Lemma touches_rd_neg_in k : touches (rd_neg_in k) ∅ ∅ {[k]} ∅.
Proof.
  intros r. unfold rd_neg_in. pose proof (dd_get_snd (neg_in_edgelist r) k) as E.
  destruct (dd_get (neg_in_edgelist r) k) as [s d]. cbn [snd] in *. subst d.
  unfold touch4. by rewrite !touch_empty.
Qed.

Lemma touches_rd_neg_out k : touches (rd_neg_out k) ∅ ∅ ∅ {[k]}.
Proof.
  intros r. unfold rd_neg_out. pose proof (dd_get_snd (neg_out_edgelist r) k) as E.
  destruct (dd_get (neg_out_edgelist r) k) as [s d]. cbn [snd] in *. subst d.
  unfold touch4. by rewrite !touch_empty.
Qed.

#[local] Hint Resolve touches_rd_pos_in touches_rd_pos_out touches_rd_neg_in
  touches_rd_neg_out : touches.

Lemma touches_inter_len ma mb K1 K2 K3 K4 J1 J2 J3 J4 :
  touches ma K1 K2 K3 K4 → touches mb J1 J2 J3 J4 →
  touches (inter_len ma mb) (K1 ∪ (J1 ∪ ∅)) (K2 ∪ (J2 ∪ ∅)) (K3 ∪ (J3 ∪ ∅)) (K4 ∪ (J4 ∪ ∅)).
Proof.
  intros Ha Hb. unfold inter_len.
  apply touches_bind; [done|]. intros a.
  apply touches_bind; [done|]. intros b. apply touches_ret.
Qed.

Lemma touches_eq {A} (m : M A) K1 K2 K3 K4 J1 J2 J3 J4 :
  touches m K1 K2 K3 K4 → K1 = J1 → K2 = J2 → K3 = J3 → K4 = J4 →
  touches m J1 J2 J3 J4.
Proof. by intros H <- <- <- <-. Qed.

Lemma get_tri_features_touches u v :
  touches (get_tri_features u v) {[u; v]} {[u; v]} {[u; v]} {[u; v]}.
Proof.
  unfold get_tri_features.
  eapply touches_eq.
  { do 16 (eapply touches_bind;
           [apply touches_inter_len; auto with touches | intros ?]).
    apply touches_ret. }
  all: set_solver.
Qed.

(** X1: [get_tri_features u v] changes the four dictionaries it is given
    in one way only: wherever [u] or [v] is not a key, it becomes a key
    bound to an empty set.  Bound keys keep their sets and no other key
    appears. *)
Theorem get_tri_features_state u v r :
  let r' := (get_tri_features u v r).2 in
  Forall2 (fun d d' : adj =>
             dom d' = dom d ∪ {[u; v]}
             ∧ ∀ k, d' !! k = match d !! k with
                              | Some s => Some s
                              | None => if decide (k = u ∨ k = v) then Some ∅ else None
                              end)
          (r_dicts r) (r_dicts r').
Proof.
  intros r'. unfold r'. rewrite get_tri_features_touches.
  unfold r_dicts, touch4.
  cbn [pos_in_edgelist pos_out_edgelist neg_in_edgelist neg_out_edgelist].
  repeat (apply Forall2_cons; split; [|]); [..|apply Forall2_nil_2];
    (split; [apply dom_touch|]); intros k; rewrite lookup_touch;
    destruct (_ !! k); try done; repeat case_decide; set_solver.
Qed.

(** X2: a second call of [get_tri_features] on the same pair returns the
    same counts and leaves the dictionaries as the first call left them; so
    does a call on the swapped pair, as to the dictionaries. *)
Theorem get_tri_features_again u v r :
  let '(counts, r1) := get_tri_features u v r in
  get_tri_features u v r1 = (counts, r1)
  ∧ (get_tri_features v u r1).2 = r1.
Proof.
  pose proof (get_tri_features_counts u v r) as E.
  pose proof (get_tri_features_req u v r) as R.
  pose proof (get_tri_features_touches u v r) as T.
  destruct (get_tri_features u v r) as [counts r1]. cbn [fst snd] in E, R, T.
  split.
  - rewrite (surjective_pairing (get_tri_features u v r1)). f_equal.
    + by rewrite get_tri_features_counts, <- (tri_counts_req r r1 u v R).
    + rewrite get_tri_features_touches, T. unfold touch4.
      cbn [pos_in_edgelist pos_out_edgelist neg_in_edgelist neg_out_edgelist].
      rewrite !touch_touch. by rewrite (idemp_L (∪) {[u; v]}).
  - rewrite get_tri_features_touches, T. unfold touch4.
    cbn [pos_in_edgelist pos_out_edgelist neg_in_edgelist neg_out_edgelist].
    rewrite !touch_touch.
    replace ({[u; v]} ∪ {[v; u]} : gset Z) with ({[u; v]} : gset Z) by set_solver.
    done.
Qed.

Lemma size_pos_iff (X : gset Z) : (0 < size X)%nat ↔ ∃ w, w ∈ X.
Proof.
  split; [apply size_pos_elem_of|]. intros [w Hw].
  destruct (decide (size X = 0%nat)) as [E|]; [|lia].
  apply size_empty_iff in E. set_solver.
Qed.

(** X3: the layout of the tuple of counts.  Count [k] is the number of
    nodes [w] that are neighbours of [u] and of [v] at once, through edges
    whose direction and sign on either side are read off [k]; it is positive
    exactly when such a common neighbour exists. *)
Theorem get_tri_features_layout u v r k :
  (k < 16)%nat →
  let du := dict_of (u_incoming k) (u_negative k) r in
  let dv := dict_of (v_incoming k) (v_negative k) r in
  (get_tri_features u v r).1 !!! k = size (view du u ∩ view dv v)
  ∧ ((0 < (get_tri_features u v r).1 !!! k)%nat ↔
     ∃ w, has_edge du u w ∧ has_edge dv v w).
Proof.
  intros Hk du dv.
  assert ((get_tri_features u v r).1 !!! k = size (view du u ∩ view dv v)) as E.
  { rewrite get_tri_features_counts. unfold du, dv, tri_counts.
    do 16 (destruct k as [|k]; [reflexivity|]). lia. }
  split; [done|]. rewrite E, size_pos_iff. unfold has_edge.
  by setoid_rewrite elem_of_intersection.
Qed.

Lemma get_tri_features_layout_witness :
  (5 < 16)%nat ∧
  (get_tri_features 0 1 (r_of_base (build_base demo_edges))).1 !!! 5%nat
  = size (view (pos_out_edgelist (r_of_base (build_base demo_edges))) 0
          ∩ view (neg_out_edgelist (r_of_base (build_base demo_edges))) 1).
Proof.
  split; [lia|].
  apply (get_tri_features_layout 0 1 (r_of_base (build_base demo_edges)) 5%nat). lia.
Defined.

(** *** The base views in terms of the rows *)

Lemma base_step_pos_in b i j s u v :
  has_edge (b_pos_in (base_step b (i, j, s))) u v ↔
  has_edge (b_pos_in b) u v ∨ (u = j ∧ v = i ∧ s > 0).
Proof.
  unfold base_step. repeat case_bool_decide; simpl;
    rewrite ?has_edge_dd_add; naive_solver lia.
Qed.

Lemma base_step_neg_in b i j s u v :
  has_edge (b_neg_in (base_step b (i, j, s))) u v ↔
  has_edge (b_neg_in b) u v ∨ (u = j ∧ v = i ∧ s < 0).
Proof.
  unfold base_step. repeat case_bool_decide; simpl;
    rewrite ?has_edge_dd_add; naive_solver lia.
Qed.

Lemma base_step_pos b i j s u v :
  has_edge (b_pos (base_step b (i, j, s))) u v ↔
  has_edge (b_pos b) u v ∨ (((u = i ∧ v = j) ∨ (u = j ∧ v = i)) ∧ s > 0).
Proof.
  unfold base_step. repeat case_bool_decide; simpl;
    rewrite ?has_edge_dd_add; naive_solver lia.
Qed.

Lemma base_step_neg b i j s u v :
  has_edge (b_neg (base_step b (i, j, s))) u v ↔
  has_edge (b_neg b) u v ∨ (((u = i ∧ v = j) ∨ (u = j ∧ v = i)) ∧ s < 0).
Proof.
  unfold base_step. repeat case_bool_decide; simpl;
    rewrite ?has_edge_dd_add; naive_solver lia.
Qed.

Lemma build_base_pos_in es u v :
  has_edge (b_pos_in (build_base es)) u v ↔ ∃ s, (v, u, s) ∈ es ∧ s > 0.
Proof.
  unfold build_base.
  assert (∀ b, has_edge (b_pos_in (foldl base_step b es)) u v ↔
               has_edge (b_pos_in b) u v ∨ ∃ s, (v, u, s) ∈ es ∧ s > 0) as H.
  { induction es as [|[[i j] s] es IH]; intros b; cbn [foldl].
    - split; [by left|]. intros [?|(s & H & _)]; [done|]. by apply elem_of_nil in H.
    - rewrite IH, base_step_pos_in. setoid_rewrite elem_of_cons. naive_solver. }
  rewrite H. split; [|by right]. intros [E|?]; [|done]. by apply has_edge_empty in E.
Qed.

Lemma build_base_neg_in es u v :
  has_edge (b_neg_in (build_base es)) u v ↔ ∃ s, (v, u, s) ∈ es ∧ s < 0.
Proof.
  unfold build_base.
  assert (∀ b, has_edge (b_neg_in (foldl base_step b es)) u v ↔
               has_edge (b_neg_in b) u v ∨ ∃ s, (v, u, s) ∈ es ∧ s < 0) as H.
  { induction es as [|[[i j] s] es IH]; intros b; cbn [foldl].
    - split; [by left|]. intros [?|(s & H & _)]; [done|]. by apply elem_of_nil in H.
    - rewrite IH, base_step_neg_in. setoid_rewrite elem_of_cons. naive_solver. }
  rewrite H. split; [|by right]. intros [E|?]; [|done]. by apply has_edge_empty in E.
Qed.

Lemma build_base_pos es u v :
  has_edge (b_pos (build_base es)) u v ↔
  ∃ s, ((u, v, s) ∈ es ∨ (v, u, s) ∈ es) ∧ s > 0.
Proof.
  unfold build_base.
  assert (∀ b, has_edge (b_pos (foldl base_step b es)) u v ↔
               has_edge (b_pos b) u v
               ∨ ∃ s, ((u, v, s) ∈ es ∨ (v, u, s) ∈ es) ∧ s > 0) as H.
  { induction es as [|[[i j] s] es IH]; intros b; cbn [foldl].
    - split; [by left|]. intros [?|(s & [H|H] & _)]; [done|..];
        by apply elem_of_nil in H.
    - rewrite IH, base_step_pos. setoid_rewrite elem_of_cons. naive_solver. }
  rewrite H. split; [|by right]. intros [E|?]; [|done]. by apply has_edge_empty in E.
Qed.

Lemma build_base_neg es u v :
  has_edge (b_neg (build_base es)) u v ↔
  ∃ s, ((u, v, s) ∈ es ∨ (v, u, s) ∈ es) ∧ s < 0.
Proof.
  unfold build_base.
  assert (∀ b, has_edge (b_neg (foldl base_step b es)) u v ↔
               has_edge (b_neg b) u v
               ∨ ∃ s, ((u, v, s) ∈ es ∨ (v, u, s) ∈ es) ∧ s < 0) as H.
  { induction es as [|[[i j] s] es IH]; intros b; cbn [foldl].
    - split; [by left|]. intros [?|(s & [H|H] & _)]; [done|..];
        by apply elem_of_nil in H.
    - rewrite IH, base_step_neg. setoid_rewrite elem_of_cons. naive_solver. }
  rewrite H. split; [|by right]. intros [E|?]; [|done]. by apply has_edge_empty in E.
Qed.

(** X4: the six base views in terms of the rows of [edge_index_s].  The
    out view holds [(u, v)] for the rows [(u, v, s)] of the view's sign, the
    in view is its transpose, and the undirected view holds both
    orientations. *)
Theorem build_adj_lists_base_views es u v :
  let L := build_adj_lists es in
  (has_edge (L !!! 0%nat) u v ↔ ∃ s, ((u, v, s) ∈ es ∨ (v, u, s) ∈ es) ∧ s > 0)
  ∧ (has_edge (L !!! 1%nat) u v ↔ ∃ s, (u, v, s) ∈ es ∧ s > 0)
  ∧ (has_edge (L !!! 2%nat) u v ↔ ∃ s, (v, u, s) ∈ es ∧ s > 0)
  ∧ (has_edge (L !!! 3%nat) u v ↔ ∃ s, ((u, v, s) ∈ es ∨ (v, u, s) ∈ es) ∧ s < 0)
  ∧ (has_edge (L !!! 4%nat) u v ↔ ∃ s, (u, v, s) ∈ es ∧ s < 0)
  ∧ (has_edge (L !!! 5%nat) u v ↔ ∃ s, (v, u, s) ∈ es ∧ s < 0).
Proof.
  intros L. unfold L.
  destruct (build_adj_lists_spec es) as (r2 & a1 & a2 & -> & R & _).
  destruct (R u) as (E1 & E2 & E3 & E4). cbn in E1, E2, E3, E4.
  rewrite <- build_base_pos, <- build_base_pos_out, <- build_base_pos_in,
    <- build_base_neg, <- build_base_neg_out, <- build_base_neg_in.
  unfold has_edge.
  change ((_ ++ a1 ++ a2) !!! 0%nat) with (b_pos (build_base es)).
  change ((_ ++ a1 ++ a2) !!! 1%nat) with (pos_out_edgelist r2).
  change ((_ ++ a1 ++ a2) !!! 2%nat) with (pos_in_edgelist r2).
  change ((_ ++ a1 ++ a2) !!! 3%nat) with (b_neg (build_base es)).
  change ((_ ++ a1 ++ a2) !!! 4%nat) with (neg_out_edgelist r2).
  change ((_ ++ a1 ++ a2) !!! 5%nat) with (neg_in_edgelist r2).
  rewrite E1, E2, E3, E4. done.
Qed.

(** *** Keys and empty sets *)

Lemma dd_add_lookup (d : adj) k x k' :
  dd_add d k x !! k' =
  if decide (k = k') then Some ({[x]} ∪ view d k) else d !! k'.
Proof.
  unfold dd_add. pose proof (dd_get_fst d k) as Hf.
  pose proof (dd_get_snd d k) as Hs.
  destruct (dd_get d k) as [s d']. cbn [fst snd] in Hf, Hs. subst s d'.
  case_decide as Hk.
  - subst. by rewrite lookup_insert_eq.
  - rewrite lookup_insert_ne, lookup_touch by done.
    destruct (d !! k'); [done|]. by rewrite decide_False by set_solver.
Qed.

Lemma no_empty_empty : no_empty ∅.
Proof. intros k s H. by rewrite lookup_empty in H. Qed.

Lemma dd_add_no_empty (d : adj) k x : no_empty d → no_empty (dd_add d k x).
Proof.
  intros Hd k' s. rewrite dd_add_lookup. case_decide.
  - intros [= <-]. set_solver.
  - apply Hd.
Qed.

Lemma dom_no_empty (d : adj) x :
  no_empty d → x ∈ dom d ↔ ∃ y, has_edge d x y.
Proof.
  intros Hd. rewrite elem_of_dom. setoid_rewrite has_edge_lookup. split.
  - intros [s Hs]. destruct (set_choose_L s (Hd x s Hs)) as [y Hy]. eauto.
  - intros (y & s & Hs & _). eauto.
Qed.

Lemma build_base_no_empty es :
  let b := build_base es in
  no_empty (b_pos b) ∧ no_empty (b_pos_out b) ∧ no_empty (b_pos_in b)
  ∧ no_empty (b_neg b) ∧ no_empty (b_neg_out b) ∧ no_empty (b_neg_in b).
Proof.
  unfold build_base.
  assert (∀ b,
    no_empty (b_pos b) ∧ no_empty (b_pos_out b) ∧ no_empty (b_pos_in b)
    ∧ no_empty (b_neg b) ∧ no_empty (b_neg_out b) ∧ no_empty (b_neg_in b) →
    let b' := foldl base_step b es in
    no_empty (b_pos b') ∧ no_empty (b_pos_out b') ∧ no_empty (b_pos_in b')
    ∧ no_empty (b_neg b') ∧ no_empty (b_neg_out b') ∧ no_empty (b_neg_in b')) as H.
  { induction es as [|[[i j] s] es IH]; intros b Hb; cbn [foldl]; [done|].
    apply IH. destruct Hb as (?&?&?&?&?&?). unfold base_step.
    repeat case_bool_decide; simpl; repeat split; auto using dd_add_no_empty. }
  apply H. simpl. repeat split; apply no_empty_empty.
Qed.

Lemma elem_of_endpoints ps x :
  x ∈ endpoints ps ↔ ∃ u v, (u, v) ∈ ps ∧ (x = u ∨ x = v).
Proof.
  unfold endpoints. rewrite elem_of_list_to_set, list_elem_of_bind. split.
  - intros ([u v] & Hx & Hp). simpl in Hx.
    apply elem_of_cons in Hx as [->|Hx]; [eauto|].
    apply elem_of_cons in Hx as [->|Hx]; [eauto|]. by apply elem_of_nil in Hx.
  - intros (u & v & Hp & [->| ->]); exists (u, v); simpl; split; try done.
    + apply elem_of_cons. by left.
    + apply elem_of_cons. right. apply elem_of_cons. by left.
Qed.

Lemma tri_fold_fst ps : ∀ st,
  (foldl (fun st p => tri_step p.1 st p.2) st ps).1
  = touch4 (endpoints ps) (endpoints ps) (endpoints ps) (endpoints ps) st.1.
Proof.
  induction ps as [|[i j] ps IH]; intros [r adds]; cbn [foldl fst snd].
  - destruct r. unfold touch4, endpoints. simpl. by rewrite !touch_empty.
  - rewrite IH. unfold tri_step. cbn [fst snd].
    pose proof (get_tri_features_touches i j r) as T.
    destruct (get_tri_features i j r) as [vl r']. cbn [fst snd] in *. subst r'.
    unfold touch4.
    cbn [pos_in_edgelist pos_out_edgelist neg_in_edgelist neg_out_edgelist].
    rewrite !touch_touch.
    replace (endpoints ((i, j) :: ps)) with ({[i; j]} ∪ endpoints ps); [done|].
    unfold endpoints. simpl. set_solver.
Qed.

Lemma tri_loop_fst (adj1 : adj) st :
  (tri_loop adj1 st).1
  = touch4 (endpoints (tri_pairs adj1)) (endpoints (tri_pairs adj1))
           (endpoints (tri_pairs adj1)) (endpoints (tri_pairs adj1)) st.1.
Proof. rewrite tri_loop_flat. apply tri_fold_fst. Qed.

(** The six base dictionaries as [build_adj_lists] returns them. *)
Lemma build_adj_lists_base es :
  let b := build_base es in
  let K := read_nodes b in
  base_views (build_adj_lists es)
  = [b_pos b; touch K (b_pos_out b); touch K (b_pos_in b);
     b_neg b; touch K (b_neg_out b); touch K (b_neg_in b)].
Proof.
  intros b K. unfold build_adj_lists. fold b.
  pose proof (tri_loop_fst (b_pos_out b) (r_of_base b, fresh_additions)) as T1.
  destruct (tri_loop (b_pos_out b) (r_of_base b, fresh_additions)) as [r1 adds1].
  pose proof (tri_loop_fst (b_neg_out b) (r1, fresh_additions)) as T2.
  destruct (tri_loop (b_neg_out b) (r1, fresh_additions)) as [r2 adds2].
  cbn [fst snd] in T1, T2. subst r1 r2. unfold base_views, touch4, r_of_base.
  cbn [take app pos_in_edgelist pos_out_edgelist neg_in_edgelist neg_out_edgelist].
  by rewrite !touch_touch.
Qed.

Lemma elem_of_read_nodes es x :
  x ∈ read_nodes (build_base es) ↔
  ∃ i j s, (i, j, s) ∈ es ∧ s ≠ 0 ∧ (x = i ∨ x = j).
Proof.
  unfold read_nodes. rewrite elem_of_union, !elem_of_endpoints.
  setoid_rewrite elem_of_tri_pairs.
  setoid_rewrite build_base_pos_out. setoid_rewrite build_base_neg_out. split.
  - intros [(u & v & (s & ? & ?) & ?)|(u & v & (s & ? & ?) & ?)];
      exists u, v, s; repeat split; try done; lia.
  - intros (i & j & s & Hin & Hs & Hx).
    destruct (decide (s > 0)); [left|right]; exists i, j; (split; [|done]);
      exists s; split; try done; lia.
Qed.

(** X5: the keys of the returned base dictionaries.  After the triad loops
    every end point of a row of non-zero sign is a key of each of the four
    directed dictionaries (out and in, positive and negative), whether or not
    it has an edge of that kind; the undirected dictionaries have the end
    points of the rows of their own sign as keys. *)
Theorem build_adj_lists_keys es :
  let L := build_adj_lists es in
  (∀ x, x ∈ dom (L !!! 0%nat) ↔ ∃ i j s, (i, j, s) ∈ es ∧ s > 0 ∧ (x = i ∨ x = j))
  ∧ (∀ x, x ∈ dom (L !!! 3%nat) ↔ ∃ i j s, (i, j, s) ∈ es ∧ s < 0 ∧ (x = i ∨ x = j))
  ∧ Forall (fun d : adj =>
              ∀ x, x ∈ dom d ↔ ∃ i j s, (i, j, s) ∈ es ∧ s ≠ 0 ∧ (x = i ∨ x = j))
           [L !!! 1%nat; L !!! 2%nat; L !!! 4%nat; L !!! 5%nat].
Proof.
  intros L.
  assert (∀ k, (k < 6)%nat → L !!! k = base_views L !!! k) as Hk.
  { intros k Hk. unfold base_views. by rewrite !list_lookup_total_alt, lookup_take_lt. }
  rewrite !Hk by lia. unfold L. rewrite build_adj_lists_base.
  destruct (build_base_no_empty es) as (N0 & N1 & N2 & N3 & N4 & N5).
  set (b := build_base es) in *. cbn [lookup_total list_lookup_total].
  split; [|split].
  - intros x. rewrite (dom_no_empty _ _ N0). unfold b.
    setoid_rewrite build_base_pos. naive_solver.
  - intros x. rewrite (dom_no_empty _ _ N3). unfold b.
    setoid_rewrite build_base_neg. naive_solver.
  - repeat (apply Forall_cons; split; [|]); [..|apply Forall_nil_2];
      intros x; rewrite dom_touch, elem_of_union; unfold b;
      rewrite elem_of_read_nodes; (split; [intros [Hd|?]; [|done]|by right]).
    + apply (dom_no_empty _ _ N1) in Hd as [y Hy]. unfold b in Hy.
      apply build_base_pos_out in Hy as (s & ? & ?).
      exists x, y, s. repeat split; [done|lia|by left].
    + apply (dom_no_empty _ _ N2) in Hd as [y Hy]. unfold b in Hy.
      apply build_base_pos_in in Hy as (s & ? & ?).
      exists y, x, s. repeat split; [done|lia|by right].
    + apply (dom_no_empty _ _ N4) in Hd as [y Hy]. unfold b in Hy.
      apply build_base_neg_out in Hy as (s & ? & ?).
      exists x, y, s. repeat split; [done|lia|by left].
    + apply (dom_no_empty _ _ N5) in Hd as [y Hy]. unfold b in Hy.
      apply build_base_neg_in in Hy as (s & ? & ?).
      exists y, x, s. repeat split; [done|lia|by right].
Qed.

Lemma mark_no_empty vl i j : ∀ idx adds,
  Forall no_empty adds → Forall no_empty (mark vl idx i j adds).
Proof.
  induction vl as [|v vl IH]; intros idx adds H; simpl; [done|].
  apply IH. case_bool_decide; [|done].
  apply Forall_alter; [done|]. intros d _ Hd. by apply dd_add_no_empty.
Qed.

Lemma tri_fold_no_empty ps : ∀ st,
  Forall no_empty st.2 →
  Forall no_empty (foldl (fun st p => tri_step p.1 st p.2) st ps).2.
Proof.
  induction ps as [|[i j] ps IH]; intros [r adds] H; cbn [foldl fst snd]; [done|].
  apply IH. unfold tri_step. cbn [fst snd].
  destruct (get_tri_features i j r) as [vl r']. cbn [snd]. by apply mark_no_empty.
Qed.

Lemma fresh_additions_no_empty : Forall no_empty fresh_additions.
Proof. apply Forall_replicate. apply no_empty_empty. Qed.

(** X6: a key of a derived subset, and of the undirected positive and
    negative dictionaries, always has at least one neighbour: none of these
    dictionaries binds a key to an empty set (the four directed base
    dictionaries can, by X5). *)
Theorem build_adj_lists_no_empty es :
  let L := build_adj_lists es in
  no_empty (L !!! 0%nat) ∧ no_empty (L !!! 3%nat)
  ∧ Forall no_empty (triad_subsets L).
Proof.
  intros L. unfold L, build_adj_lists.
  destruct (build_base_no_empty es) as (N0 & _ & _ & N3 & _).
  set (b := build_base es) in *.
  pose proof (tri_fold_no_empty (tri_pairs (b_pos_out b))
                (r_of_base b, fresh_additions) fresh_additions_no_empty) as F1.
  rewrite <- tri_loop_flat in F1.
  destruct (tri_loop (b_pos_out b) (r_of_base b, fresh_additions)) as [r1 adds1].
  pose proof (tri_fold_no_empty (tri_pairs (b_neg_out b))
                (r1, fresh_additions) fresh_additions_no_empty) as F2.
  rewrite <- tri_loop_flat in F2.
  destruct (tri_loop (b_neg_out b) (r1, fresh_additions)) as [r2 adds2].
  cbn [snd] in F1, F2. split; [done|]. split; [done|].
  unfold triad_subsets. cbn [drop app]. by apply Forall_app.
Qed.

(** *** Edge lists *)

(** X7: [map_adj_to_edges] lists exactly the edges of the dictionary, each
    once; keys bound to an empty set contribute nothing. *)
Theorem map_adj_to_edges_edges (d : adj) :
  NoDup (map_adj_to_edges d)
  ∧ (∀ a b, (a, b) ∈ map_adj_to_edges d ↔ ∃ s, d !! a = Some s ∧ b ∈ s)
  ∧ (∀ K a b, (a, b) ∈ map_adj_to_edges (touch K d) ↔ (a, b) ∈ map_adj_to_edges d).
Proof.
  assert (∀ (d : adj) a b, (a, b) ∈ map_adj_to_edges d ↔ has_edge d a b) as Hin.
  { intros. apply elem_of_tri_pairs. }
  split; [|split].
  - unfold map_adj_to_edges. apply NoDup_bind.
    + intros [k1 s1] [k2 s2] [a b] H1 H2 Ha Hb. simpl in Ha, Hb.
      apply list_elem_of_fmap in Ha as (? & [= -> ->] & _).
      apply list_elem_of_fmap in Hb as (? & [= -> _] & _).
      apply elem_of_map_to_list in H1, H2. congruence.
    + intros [k s] _. simpl. apply NoDup_fmap_2; [|apply NoDup_elements].
      by intros ? ? [= ->].
    + apply NoDup_map_to_list.
  - intros a b. rewrite Hin. apply has_edge_lookup.
  - intros K a b. rewrite !Hin. unfold has_edge, view. rewrite lookup_touch.
    destruct (d !! a); [done|]. case_decide; set_solver.
Qed.

Lemma has_edge_touch K (d : adj) a b : has_edge (touch K d) a b ↔ has_edge d a b.
Proof.
  unfold has_edge, view. rewrite lookup_touch.
  destruct (d !! a); [done|]. case_decide; set_solver.
Qed.

Lemma build_adj_lists_length es : length (build_adj_lists es) = 38%nat.
Proof.
  destruct (build_adj_lists_spec es) as (r2 & a1 & a2 & -> & _ & L1 & L2 & _).
  cbn [app length]. rewrite length_app. lia.
Qed.

Lemma build_adj_lists_lookup_base es k :
  (k < 6)%nat → build_adj_lists es !!! k = base_views (build_adj_lists es) !!! k.
Proof.
  intros Hk. unfold base_views. by rewrite !list_lookup_total_alt, lookup_take_lt.
Qed.

(** *** Dependence on the rows *)

Lemma adj_ext (d1 d2 : adj) :
  no_empty d1 → no_empty d2 →
  (∀ a b, has_edge d1 a b ↔ has_edge d2 a b) → d1 = d2.
Proof.
  intros N1 N2 H. apply map_eq. intros k.
  assert (∀ (d d' : adj) s, no_empty d → (∀ b, has_edge d k b → has_edge d' k b) →
            d !! k = Some s → ∃ s', d' !! k = Some s' ∧ s ⊆ s') as Hsub.
  { intros d d' s N Hd Hs. destruct (set_choose_L s (N k s Hs)) as [y Hy].
    assert (has_edge d' k y) as Hy'.
    { apply Hd. apply has_edge_lookup. eauto. }
    apply has_edge_lookup in Hy' as (s' & Hs' & _). exists s'. split; [done|].
    intros z Hz. assert (has_edge d' k z) as Hz'.
    { apply Hd. apply has_edge_lookup. eauto. }
    apply has_edge_lookup in Hz' as (s'' & Hs'' & ?). congruence. }
  destruct (d1 !! k) as [s1|] eqn:E1, (d2 !! k) as [s2|] eqn:E2; [| | |done].
  - destruct (Hsub d1 d2 s1 N1 (fun b => proj1 (H k b)) E1) as (s & Es & S1).
    destruct (Hsub d2 d1 s2 N2 (fun b => proj2 (H k b)) E2) as (s' & Es' & S2).
    f_equal. apply set_eq. intros z. split; [intros Hz|intros Hz].
    + apply S1 in Hz. congruence.
    + apply S2 in Hz. congruence.
  - destruct (Hsub d1 d2 s1 N1 (fun b => proj1 (H k b)) E1) as (s & Es & _).
    congruence.
  - destruct (Hsub d2 d1 s2 N2 (fun b => proj2 (H k b)) E2) as (s & Es & _).
    congruence.
Qed.

Lemma build_base_ext es1 es2 :
  (∀ i j, (∃ s, (i, j, s) ∈ es1 ∧ s > 0) ↔ (∃ s, (i, j, s) ∈ es2 ∧ s > 0)) →
  (∀ i j, (∃ s, (i, j, s) ∈ es1 ∧ s < 0) ↔ (∃ s, (i, j, s) ∈ es2 ∧ s < 0)) →
  build_base es1 = build_base es2.
Proof.
  intros Hp Hn.
  destruct (build_base_no_empty es1) as (A0 & A1 & A2 & A3 & A4 & A5).
  destruct (build_base_no_empty es2) as (B0 & B1 & B2 & B3 & B4 & B5).
  assert (b_pos (build_base es1) = b_pos (build_base es2)) as E0.
  { apply adj_ext; [done..|]. intros a b. rewrite !build_base_pos. split.
    - intros (s & [H|H] & Hs).
      + destruct (proj1 (Hp a b)) as (s' & ? & ?); eauto.
      + destruct (proj1 (Hp b a)) as (s' & ? & ?); eauto.
    - intros (s & [H|H] & Hs).
      + destruct (proj2 (Hp a b)) as (s' & ? & ?); eauto.
      + destruct (proj2 (Hp b a)) as (s' & ? & ?); eauto. }
  assert (b_pos_out (build_base es1) = b_pos_out (build_base es2)) as E1.
  { apply adj_ext; [done..|]. intros a b. rewrite !build_base_pos_out. apply Hp. }
  assert (b_pos_in (build_base es1) = b_pos_in (build_base es2)) as E2.
  { apply adj_ext; [done..|]. intros a b. rewrite !build_base_pos_in. apply Hp. }
  assert (b_neg (build_base es1) = b_neg (build_base es2)) as E3.
  { apply adj_ext; [done..|]. intros a b. rewrite !build_base_neg. split.
    - intros (s & [H|H] & Hs).
      + destruct (proj1 (Hn a b)) as (s' & ? & ?); eauto.
      + destruct (proj1 (Hn b a)) as (s' & ? & ?); eauto.
    - intros (s & [H|H] & Hs).
      + destruct (proj2 (Hn a b)) as (s' & ? & ?); eauto.
      + destruct (proj2 (Hn b a)) as (s' & ? & ?); eauto. }
  assert (b_neg_out (build_base es1) = b_neg_out (build_base es2)) as E4.
  { apply adj_ext; [done..|]. intros a b. rewrite !build_base_neg_out. apply Hn. }
  assert (b_neg_in (build_base es1) = b_neg_in (build_base es2)) as E5.
  { apply adj_ext; [done..|]. intros a b. rewrite !build_base_neg_in. apply Hn. }
  destruct (build_base es1), (build_base es2). simpl in *. congruence.
Qed.

(** X10: the dictionaries returned by [build_adj_lists] depend only on
    which pairs occur with a positive sign and which with a negative sign:
    two inputs with the same positive pairs and the same negative pairs give
    dictionaries with the same keys and sets, whatever the order, the
    multiplicity and the magnitudes of their rows. *)
Theorem build_adj_lists_ext es1 es2 :
  (∀ i j, (∃ s, (i, j, s) ∈ es1 ∧ s > 0) ↔ (∃ s, (i, j, s) ∈ es2 ∧ s > 0)) →
  (∀ i j, (∃ s, (i, j, s) ∈ es1 ∧ s < 0) ↔ (∃ s, (i, j, s) ∈ es2 ∧ s < 0)) →
  build_adj_lists es1 = build_adj_lists es2.
Proof.
  intros Hp Hn. unfold build_adj_lists. by rewrite (build_base_ext es1 es2 Hp Hn).
Qed.

Ltac rows_iff :=
  let pick := (eexists; split;
               [ repeat first [ apply list_elem_of_here | apply list_elem_of_further ]
               | lia ]) in
  intros ? ?; split; intros (? & Hin & ?);
  repeat (apply elem_of_cons in Hin as [[= -> -> ->]|Hin]);
  try (by apply elem_of_nil in Hin); try lia; pick.

Lemma build_adj_lists_ext_witness :
  (∀ i j, (∃ s, (i, j, s) ∈ demo_edges ∧ s > 0)
          ↔ (∃ s, (i, j, s) ∈ demo_edges_shuffled ∧ s > 0))
  ∧ (∀ i j, (∃ s, (i, j, s) ∈ demo_edges ∧ s < 0)
            ↔ (∃ s, (i, j, s) ∈ demo_edges_shuffled ∧ s < 0))
  ∧ build_adj_lists demo_edges = build_adj_lists demo_edges_shuffled.
Proof.
  assert (∀ i j, (∃ s, (i, j, s) ∈ demo_edges ∧ s > 0)
                 ↔ (∃ s, (i, j, s) ∈ demo_edges_shuffled ∧ s > 0)) as Hp
    by (unfold demo_edges, demo_edges_shuffled; rows_iff).
  assert (∀ i j, (∃ s, (i, j, s) ∈ demo_edges ∧ s < 0)
                 ↔ (∃ s, (i, j, s) ∈ demo_edges_shuffled ∧ s < 0)) as Hn
    by (unfold demo_edges, demo_edges_shuffled; rows_iff).
  split; [exact Hp|]. split; [exact Hn|].
  exact (build_adj_lists_ext demo_edges demo_edges_shuffled Hp Hn).
Defined.

(** *** The derived subsets in terms of the rows *)

Lemma tri_counts_layout r u v k :
  (k < 16)%nat →
  tri_counts r u v !!! k
  = size (view (dict_of (u_incoming k) (u_negative k) r) u
          ∩ view (dict_of (v_incoming k) (v_negative k) r) v).
Proof.
  intros Hk. unfold tri_counts.
  do 16 (destruct k as [|k]; [reflexivity|]). lia.
Qed.

Lemma dict_of_row_edge es incoming negative u w :
  has_edge (dict_of incoming negative (r_of_base (build_base es))) u w
  ↔ row_edge es incoming negative u w.
Proof.
  unfold row_edge, dict_of, r_of_base.
  destruct incoming, negative;
    cbn [pos_in_edgelist pos_out_edgelist neg_in_edgelist neg_out_edgelist].
  - apply build_base_neg_in.
  - apply build_base_pos_in.
  - apply build_base_neg_out.
  - apply build_base_pos_out.
Qed.

(** X13: the derived subsets read off the rows.  For [k < 16], [(u, v)] is
    in derived subset [k] exactly when some row [(u, v, s)] is positive and
    some node [w] is linked to [u] and to [v] by rows of the directions and
    signs that position [k] stands for; derived subset [16 + k] is the same
    for a negative row [(u, v, s)]. *)
Theorem triad_subsets_rows es k u v :
  (k < 16)%nat →
  let T := triad_subsets (build_adj_lists es) in
  let triad :=
    ∃ w, row_edge es (u_incoming k) (u_negative k) u w
         ∧ row_edge es (v_incoming k) (v_negative k) v w in
  (has_edge (T !!! k) u v ↔ (∃ s, (u, v, s) ∈ es ∧ s > 0) ∧ triad)
  ∧ (has_edge (T !!! (16 + k)%nat) u v ↔ (∃ s, (u, v, s) ∈ es ∧ s < 0) ∧ triad).
Proof.
  intros Hk T triad. unfold T, triad.
  destruct (build_adj_lists_spec es) as (r2 & a1 & a2 & -> & R & L1 & L2 & S1 & S2).
  match goal with |- context [triad_subsets (?l ++ a1 ++ a2)] =>
    change (triad_subsets (l ++ a1 ++ a2)) with (a1 ++ a2) end.
  rewrite lookup_total_app_l' by lia.
  rewrite <- L1 at 1. rewrite lookup_total_app_r'.
  rewrite S1, S2 by done. rewrite tri_counts_layout by done.
  rewrite size_pos_iff, build_base_pos_out, build_base_neg_out.
  setoid_rewrite elem_of_intersection.
  assert ((∃ w, w ∈ view (dict_of (u_incoming k) (u_negative k)
                           (r_of_base (build_base es))) u
                ∧ w ∈ view (dict_of (v_incoming k) (v_negative k)
                             (r_of_base (build_base es))) v)
          ↔ ∃ w, row_edge es (u_incoming k) (u_negative k) u w
                 ∧ row_edge es (v_incoming k) (v_negative k) v w) as ->; [|done].
  split; intros (w & H1 & H2); exists w; split;
    first [by apply dict_of_row_edge | by apply (dict_of_row_edge es)].
Qed.

Lemma triad_subsets_rows_witness :
  (5 < 16)%nat ∧
  (has_edge (triad_subsets (build_adj_lists demo_edges) !!! 5%nat) 0 1 ↔
   (∃ s, (0, 1, s) ∈ demo_edges ∧ s > 0)
   ∧ ∃ w, row_edge demo_edges false false 0 w ∧ row_edge demo_edges false true 1 w).
Proof.
  split; [lia|]. apply (triad_subsets_rows demo_edges 5%nat 0 1). lia.
Defined.

(** X14: every row is of exactly one kind: the columns of
    [pos_edge_index], the columns of [neg_edge_index] and the rows of sign 0
    together are as many as the rows of [edge_index_s] (repeated rows are
    repeated columns). *)
Theorem select_edges_partition es :
  let n_pos := length (select_edges (fun s => s > 0) es) in
  let n_neg := length (select_edges (fun s => s < 0) es) in
  let n_zero := length (filter (fun e : signed_edge => e.2 = 0) es) in
  length es = (n_pos + n_neg + n_zero)%nat.
Proof.
  cbv zeta. unfold select_edges. rewrite !length_fmap.
  induction es as [|[[i j] s] es IH]; [done|].
  rewrite !filter_cons. simpl.
  repeat case_decide; simpl; lia.
Qed.

Section ModelFacts.

Context {tensor GATConv MLP : Type}.
Variable GATConv_forward : GATConv → tensor → edge_index → tensor.
Variable MLP_forward : MLP → tensor → tensor.
Variable cat1 : list tensor → tensor.
Variable lsp_loss : tensor → edge_index → edge_index → tensor.
Variable normal_init : nat → nat → tensor.

(** X8: in a constructed model the cached edge lists agree with the cached
    edge tensors.  There are 38 adjacency views, edge lists and aggregators;
    no edge list repeats an edge; edge list 1 (4) has the edges of
    [pos_edge_index] ([neg_edge_index]), edge list 2 (5) has them reversed
    and edge list 0 (3) has them in both orientations. *)
Theorem init_edge_lists n es din dout emb new_agg new_mlp u v :
  let self := init tensor GATConv MLP normal_init n es din dout emb new_agg new_mlp in
  let el := edge_lists tensor GATConv MLP self in
  let pos := pos_edge_index tensor GATConv MLP self in
  let neg := neg_edge_index tensor GATConv MLP self in
  length (adj_lists tensor GATConv MLP self) = 38%nat
  ∧ length el = 38%nat
  ∧ length (aggs tensor GATConv MLP self) = 38%nat
  ∧ Forall NoDup el
  ∧ ((u, v) ∈ el !!! 0%nat ↔ (u, v) ∈ pos ∨ (v, u) ∈ pos)
  ∧ ((u, v) ∈ el !!! 1%nat ↔ (u, v) ∈ pos)
  ∧ ((u, v) ∈ el !!! 2%nat ↔ (v, u) ∈ pos)
  ∧ ((u, v) ∈ el !!! 3%nat ↔ (u, v) ∈ neg ∨ (v, u) ∈ neg)
  ∧ ((u, v) ∈ el !!! 4%nat ↔ (u, v) ∈ neg)
  ∧ ((u, v) ∈ el !!! 5%nat ↔ (v, u) ∈ neg).
Proof using Type.
  clear GATConv_forward MLP_forward cat1 lsp_loss.
  intros self el pos neg. unfold el, pos, neg, self. cbn [init edge_lists
    pos_edge_index neg_edge_index adj_lists aggs].
  pose proof (build_adj_lists_length es) as HL.
  rewrite length_fmap, length_fmap, length_seq, HL.
  split; [done|]. split; [done|]. split; [done|]. split.
  { apply Forall_fmap, Forall_forall. intros d _. simpl.
    unfold map_adj_to_edges. apply NoDup_bind.
    - intros [k1 s1] [k2 s2] [a b] H1 H2 Ha Hb. simpl in Ha, Hb.
      apply list_elem_of_fmap in Ha as (? & [= -> ->] & _).
      apply list_elem_of_fmap in Hb as (? & [= -> _] & _).
      apply elem_of_map_to_list in H1, H2. congruence.
    - intros [k s] _. simpl. apply NoDup_fmap_2; [|apply NoDup_elements].
      by intros ? ? [= ->].
    - apply NoDup_map_to_list. }
  rewrite !(list_lookup_total_fmap map_adj_to_edges) by lia.
  rewrite !build_adj_lists_lookup_base by lia. rewrite build_adj_lists_base.
  cbn [lookup_total list_lookup_total].
  change map_adj_to_edges with tri_pairs.
  rewrite !elem_of_tri_pairs, !has_edge_touch, !elem_of_select_edges.
  rewrite build_base_pos, build_base_pos_out, build_base_pos_in,
    build_base_neg, build_base_neg_out, build_base_neg_in.
  repeat split; naive_solver.
Qed.

End ModelFacts.

(** *** Running the model: objects, references and exceptions *)

Section Exec.

Context {tensor GATConv MLP : Type}.

(** The attribute table of a model, holding references into the heap; the
    two Python lists and the layers are held by the table itself. *)
Record SiGAT_ref := {
  ref_x : nat;
  ref_pos_edge_index : nat;
  ref_neg_edge_index : nat;
  ref_adj_lists : list nat;
  ref_edge_lists : list nat;
  ref_aggs : list GATConv;
  ref_mlp_layer : MLP
}.

(** The objects that a model, the arguments and the results of the library
    calls refer to. *)
Inductive object :=
  | Adj (d : adj)                  (* a dictionary of sets *)
  | Edges (e : edge_index)         (* a tensor of edges *)
  | Floats (t : tensor)            (* a float tensor *)
  | Instance (attrs : SiGAT_ref).  (* a model *)

(** The heap: reference [l] is the [l]-th object allocated. *)
#[local] Abbreviation heap := (list object).

(** Every object of [h] is in [h'] as it was. *)
Definition preserves (h h' : heap) : Prop :=
  ∀ l o, h !! l = Some o → h' !! l = Some o.

(** A computation on the heap: it returns a value or raises ([None]), and
    leaves a heap either way. *)
Definition E (A : Type) : Type := heap → option A * heap.

Definition pure {A} (a : A) : E A := fun h => (Some a, h).
Definition raise {A} : E A := fun h => (None, h).
Definition and_then {A B} (m : E A) (k : A → E B) : E B :=
  fun h =>
    match m h with
    | (Some a, h) => k a h
    | (None, h) => (None, h)
    end.

#[local] Notation "'let!' x ':=' m 'in' k" := (and_then m (fun x => k))
  (at level 10, x name, m at level 100, k at level 200).

(** [self.f], read from the model that [this] refers to at the time of the
    access. *)
Definition getattr {A} (this : nat) (f : SiGAT_ref → A) : E A :=
  fun h =>
    match h !! this with
    | Some (Instance self) => (Some (f self), h)
    | _ => (None, h)
    end.

(** A computation that leaves the objects that exist before it as they
    were, whether it returns or raises. *)
Definition frame {A} (m : E A) : Prop := ∀ h, preserves h (m h).2.

(** The calls into the graph-learning library and into the loss module of
    this package, none of which is part of the two model files.  A call
    gets references, may allocate and may write to the heap, and returns a
    reference or raises. *)
Variable GATConv_forward : GATConv → nat → nat → E nat.
Variable cat1 : list nat → E nat.
Variable MLP_forward : MLP → nat → E nat.
Variable lsp_loss : nat → nat → nat → E nat.
Variable normal_init : nat → nat → tensor.

(** The order in which Python walks the keys of view [i] and the elements
    of its sets, which the dictionaries of this development do not record. *)
Variable iter_order : list signed_edge → nat → edge_index → edge_index.

(** [SiGAT.__init__]: the reference of the new model and the heap that holds
    it and the objects it refers to. *)
Definition construct (n : nat) (es : list signed_edge) (din dout : nat)
    (emb : option tensor) (new_agg : nat → GATConv) (new_mlp : MLP)
    : nat * heap :=
  let m := init tensor GATConv MLP normal_init n es din dout emb new_agg new_mlp in
  let adjs := adj_lists tensor GATConv MLP m in
  let els := imap (iter_order es) (edge_lists tensor GATConv MLP m) in
  let self :=
    {| ref_x := 0;
       ref_pos_edge_index := 1;
       ref_neg_edge_index := 2;
       ref_adj_lists := seq 3 (length adjs);
       ref_edge_lists := seq (3 + length adjs) (length els);
       ref_aggs := aggs tensor GATConv MLP m;
       ref_mlp_layer := mlp_layer tensor GATConv MLP m |} in
  ((3 + length adjs + length els)%nat,
   [Floats (x tensor GATConv MLP m);
    Edges (pos_edge_index tensor GATConv MLP m);
    Edges (neg_edge_index tensor GATConv MLP m)]
   ++ (Adj <$> adjs) ++ (Edges <$> els) ++ [Instance self]).

(** [agg(x1, edges)].  For a view without edges [map_adj_to_edges] has
    built a one-dimensional tensor of shape [(0,)]; the layer indexes rows 0
    and 1 of its edge tensor, and the call raises [IndexError]. *)
Definition agg_call (agg : GATConv) (x1 edges : nat) : E nat :=
  fun h =>
    match h !! edges with
    | Some (Edges []) => raise h
    | _ => GATConv_forward agg x1 edges h
    end.

(** [for edges, agg in zip(self.edge_lists, self.aggs)]. *)
Fixpoint agg_loop (this : nat) (pairs : list (nat * GATConv))
    (neigh_feats : list nat) : E (list nat) :=
  match pairs with
  | [] => pure neigh_feats
  | (edges, agg) :: pairs =>
      let! x1 := getattr this ref_x in
      let! x2 := agg_call agg x1 edges in
      agg_loop this pairs (neigh_feats ++ [x2])
  end.

(** [SiGAT.forward]: the reference of the result, or an exception. *)
Definition forward (this : nat) : E nat :=
  let! edge_lists := getattr this ref_edge_lists in
  let! aggs := getattr this ref_aggs in
  let! neigh_feats := agg_loop this (zip edge_lists aggs) [] in
  let! x0 := getattr this ref_x in
  let! combined := cat1 (x0 :: neigh_feats) in
  let! mlp_layer := getattr this ref_mlp_layer in
  MLP_forward mlp_layer combined.

(** [SiGAT.loss]. *)
Definition loss (this : nat) : E nat :=
  let! z := forward this in
  let! pos_edge_index := getattr this ref_pos_edge_index in
  let! neg_edge_index := getattr this ref_neg_edge_index in
  lsp_loss z pos_edge_index neg_edge_index.

Inductive call := Forward | Loss.

(** The heap after one call, whether it returned or raised. *)
Definition run_call (this : nat) (h : heap) (c : call) : heap :=
  match c with
  | Forward => (forward this h).2
  | Loss => (loss this h).2
  end.

Definition run (this : nat) (calls : list call) (h : heap) : heap :=
  foldl (run_call this) h calls.

Lemma preserves_refl h : preserves h h.
Proof using Type. by intros l o. Qed.

Lemma preserves_trans h1 h2 h3 : preserves h1 h2 → preserves h2 h3 → preserves h1 h3.
Proof using Type. intros H1 H2 l o Hl. by apply H2, H1. Qed.

Lemma frame_pure {A} (a : A) : frame (pure a).
Proof using Type. intros h. apply preserves_refl. Qed.

Lemma frame_and_then {A B} (m : E A) (k : A → E B) :
  frame m → (∀ a, frame (k a)) → frame (and_then m k).
Proof using Type.
  intros Hm Hk h. unfold and_then. pose proof (Hm h) as H1.
  destruct (m h) as [[a|] h1]; cbn [snd] in *; [|exact H1].
  eapply preserves_trans; [exact H1|apply Hk].
Qed.

Lemma frame_getattr {A} this (f : SiGAT_ref → A) : frame (getattr this f).
Proof using Type.
  intros h. unfold getattr. destruct (h !! this) as [[]|]; apply preserves_refl.
Qed.

Lemma and_then_getattr {A B} this self (f : SiGAT_ref → A) (k : A → E B) h :
  h !! this = Some (Instance self) → and_then (getattr this f) k h = k (f self) h.
Proof using Type. intros H. unfold and_then, getattr. by rewrite H. Qed.

Lemma construct_lookup_fmap {A} (f : A → object) (pre post : heap) (L : list A) :
  Forall2 (fun l a => (pre ++ (f <$> L) ++ post) !! l = Some (f a))
          (seq (length pre) (length L)) L.
Proof using Type.
  apply Forall2_same_length_lookup. split; [by rewrite length_seq|].
  intros i l a Hl Ha. apply lookup_seq in Hl as [-> Hi].
  rewrite lookup_app_r by lia.
  replace (length pre + i - length pre)%nat with i by lia.
  rewrite lookup_app_l by (rewrite length_fmap; lia).
  by rewrite list_lookup_fmap, Ha.
Qed.

(** What [__init__] leaves on the heap: the model under its reference, and
    under the references of its cached attributes the values built from the
    edge list. *)
Lemma construct_attributes n es din dout emb new_agg new_mlp :
  let '(this, h0) := construct n es din dout emb new_agg new_mlp in
  ∃ self,
    h0 !! this = Some (Instance self)
    ∧ ref_aggs self = new_agg <$> seq 0 (length (build_adj_lists es))
    ∧ Forall2 (fun l d => h0 !! l = Some (Adj d))
              (ref_adj_lists self) (build_adj_lists es)
    ∧ Forall2 (fun l e => h0 !! l = Some (Edges e))
              (ref_edge_lists self)
              (imap (iter_order es) (map_adj_to_edges <$> build_adj_lists es))
    ∧ h0 !! ref_pos_edge_index self = Some (Edges (select_edges (fun s => s > 0) es))
    ∧ h0 !! ref_neg_edge_index self = Some (Edges (select_edges (fun s => s < 0) es)).
Proof using Type.
  unfold construct. cbn [init adj_lists edge_lists pos_edge_index neg_edge_index
    aggs mlp_layer x].
  set (L := build_adj_lists es).
  set (E0 := imap (iter_order es) (map_adj_to_edges <$> L)).
  match goal with |- context [Instance ?s] => set (self := s) end.
  match goal with |- context [?pre ++ (Adj <$> L) ++ _] => set (P := pre) end.
  exists self. split; [|split; [done|split; [|split; [|done]]]].
  - rewrite !app_assoc. rewrite lookup_app_r; rewrite !length_app, !length_fmap;
      cbn [length P]; [|lia].
    replace (3 + length L + length E0 - (3 + length L + length E0))%nat with 0%nat
      by lia.
    done.
  - apply (construct_lookup_fmap Adj P ((Edges <$> E0) ++ [Instance self]) L).
  - pose proof (construct_lookup_fmap Edges (P ++ (Adj <$> L)) [Instance self] E0)
      as H.
    rewrite length_app, length_fmap in H. cbn [length P] in H.
    rewrite <- app_assoc in H. exact H.
Qed.

Section Frames.

(** What is asked of the library calls: whether they return or raise, they
    leave the objects that existed before the call as they were. *)
Hypothesis GATConv_frame : ∀ agg x1 edges, frame (GATConv_forward agg x1 edges).
Hypothesis cat1_frame : ∀ ts, frame (cat1 ts).
Hypothesis MLP_frame : ∀ mlp t, frame (MLP_forward mlp t).
Hypothesis lsp_loss_frame : ∀ z pos neg, frame (lsp_loss z pos neg).

Lemma agg_call_frame agg x1 edges : frame (agg_call agg x1 edges).
Proof using GATConv_frame.
  intros h. unfold agg_call, raise. destruct (h !! edges) as [[d|[|e es]|t|s]|];
    first [apply GATConv_frame | apply preserves_refl].
Qed.

Lemma agg_loop_frame this pairs : ∀ acc, frame (agg_loop this pairs acc).
Proof using GATConv_frame.
  induction pairs as [|[edges agg] pairs IH]; intros acc; cbn [agg_loop].
  - apply frame_pure.
  - apply frame_and_then; [apply frame_getattr|intros x1].
    apply frame_and_then; [apply agg_call_frame|intros x2]. apply IH.
Qed.

Lemma forward_frame this : frame (forward this).
Proof using GATConv_frame cat1_frame MLP_frame.
  unfold forward.
  repeat (apply frame_and_then;
          [first [apply frame_getattr | apply agg_loop_frame | apply cat1_frame]
          |intros ?]).
  apply MLP_frame.
Qed.

Lemma loss_frame this : frame (loss this).
Proof using GATConv_frame cat1_frame MLP_frame lsp_loss_frame.
  unfold loss.
  repeat (apply frame_and_then;
          [first [apply frame_getattr | apply forward_frame]|intros ?]).
  apply lsp_loss_frame.
Qed.

Lemma run_frame this calls : ∀ h, preserves h (run this calls h).
Proof using GATConv_frame cat1_frame MLP_frame lsp_loss_frame.
  unfold run. induction calls as [|c calls IH]; intros h; cbn [foldl].
  - apply preserves_refl.
  - eapply preserves_trans; [|apply IH].
    destruct c; [apply forward_frame|apply loss_frame].
Qed.

(** C8: [forward] and [loss] leave the cached adjacency derivations
    unchanged.  Provided the library layers, [torch.cat] and the loss module
    do not write to objects that exist when they are called, then after any
    sequence of [forward] and [loss] calls on a constructed model, returning
    or raising, the model has the attributes that [__init__] gave it, and
    the objects under [adj_lists], [edge_lists], [pos_edge_index] and
    [neg_edge_index] are the ones [__init__] built. *)
Theorem forward_loss_frame n es din dout emb new_agg new_mlp (calls : list call) :
  let '(this, h0) := construct n es din dout emb new_agg new_mlp in
  let h' := run this calls h0 in
  preserves h0 h'
  ∧ ∃ self,
      h0 !! this = Some (Instance self)
      ∧ h' !! this = Some (Instance self)
      ∧ Forall2 (fun l d => h' !! l = Some (Adj d))
                (ref_adj_lists self) (build_adj_lists es)
      ∧ Forall2 (fun l e => h' !! l = Some (Edges e))
                (ref_edge_lists self)
                (imap (iter_order es) (map_adj_to_edges <$> build_adj_lists es))
      ∧ h' !! ref_pos_edge_index self
        = Some (Edges (select_edges (fun s => s > 0) es))
      ∧ h' !! ref_neg_edge_index self
        = Some (Edges (select_edges (fun s => s < 0) es)).
Proof using GATConv_frame cat1_frame MLP_frame lsp_loss_frame.
  pose proof (construct_attributes n es din dout emb new_agg new_mlp) as HA.
  destruct (construct n es din dout emb new_agg new_mlp) as [this h0].
  destruct HA as (self & A0 & _ & A1 & A2 & A3 & A4). intros h'.
  assert (preserves h0 h') as HP by apply run_frame.
  split; [done|]. exists self.
  split; [done|]. split; [by apply HP|]. split; [|split; [|split]].
  - eapply Forall2_impl; [exact A1|]. intros l d Hl. by apply HP.
  - eapply Forall2_impl; [exact A2|]. intros l e Hl. by apply HP.
  - by apply HP.
  - by apply HP.
Qed.

Lemma agg_loop_empty this self pairs : ∀ acc h i edges agg,
  h !! this = Some (Instance self) →
  pairs !! i = Some (edges, agg) → h !! edges = Some (Edges []) →
  (agg_loop this pairs acc h).1 = None.
Proof using GATConv_frame.
  induction pairs as [|[edges0 agg0] pairs IH]; intros acc h i edges agg Ht Hi He;
    [done|].
  cbn [agg_loop]. rewrite (and_then_getattr this self) by done.
  unfold and_then at 1. destruct i as [|i].
  - injection Hi as -> ->. unfold agg_call. by rewrite He.
  - pose proof (agg_call_frame agg0 (ref_x self) edges0 h) as Hc.
    destruct (agg_call agg0 (ref_x self) edges0 h) as [[x2|] h1];
      cbn [snd] in Hc; [|done].
    apply (IH _ _ i edges agg); [by apply Hc|done|by apply Hc].
Qed.

Lemma map_adj_to_edges_nil (d : adj) :
  (∀ u v, ¬ has_edge d u v) → map_adj_to_edges d = [].
Proof using Type.
  intros H. change (map_adj_to_edges d) with (tri_pairs d).
  destruct (tri_pairs d) as [|[a b] ps] eqn:E0; [done|].
  exfalso. apply (H a b), elem_of_tri_pairs. rewrite E0. apply list_elem_of_here.
Qed.

(** X9: [forward] and [loss] raise on a model one of whose 38 adjacency
    views has no edge: the aggregator of that view is handed a
    one-dimensional empty tensor.  This holds on the heap left by
    [__init__] and on any later heap in which the model and the cached
    objects are as they were, whatever the other aggregators do before. *)
Theorem forward_empty_view n es din dout emb new_agg new_mlp i :
  (∀ es i e, iter_order es i e ≡ₚ e) →
  (i < 38)%nat →
  (∀ u v, ¬ has_edge (build_adj_lists es !!! i) u v) →
  let '(this, h0) := construct n es din dout emb new_agg new_mlp in
  ∀ h, preserves h0 h → (forward this h).1 = None ∧ (loss this h).1 = None.
Proof using GATConv_frame.
  intros Hperm Hi Hempty.
  pose proof (construct_attributes n es din dout emb new_agg new_mlp) as HA.
  destruct (construct n es din dout emb new_agg new_mlp) as [this h0].
  destruct HA as (self & A0 & Haggs & _ & A2 & _). intros h HP.
  pose proof (build_adj_lists_length es) as HL.
  assert ((forward this h).1 = None) as HF.
  { unfold forward.
    rewrite !(and_then_getattr this self) by (by apply HP). unfold and_then at 1.
    destruct (lookup_lt_is_Some_2 (build_adj_lists es) i) as [d Hd]; [lia|].
    assert (imap (iter_order es) (map_adj_to_edges <$> build_adj_lists es) !! i
            = Some []) as HE.
    { rewrite list_lookup_imap, list_lookup_fmap, Hd. cbn. f_equal.
      rewrite (list_lookup_total_correct _ _ _ Hd) in Hempty.
      rewrite (map_adj_to_edges_nil d Hempty).
      apply Permutation_nil_r. apply Hperm. }
    destruct (Forall2_lookup_r _ _ _ _ _ A2 HE) as (l & Hl & Hh).
    assert (zip (ref_edge_lists self) (ref_aggs self) !! i = Some (l, new_agg i))
      as Hz.
    { rewrite lookup_zip_with, Hl, Haggs, list_lookup_fmap. cbn.
      by rewrite lookup_seq_lt by lia. }
    pose proof (agg_loop_empty this self _ [] h i l (new_agg i)
                  (HP _ _ A0) Hz (HP _ _ Hh)) as Hloop.
    destruct (agg_loop _ _ _ h) as [[feats|] h1]; [discriminate|reflexivity]. }
  split; [done|]. unfold loss, and_then.
  destruct (forward this h) as [[z|] h1]; [discriminate|done].
Qed.

End Frames.

End Exec.

(** *** Runs with stand-in layers *)

(** Layers that allocate one tensor and return it. *)
Definition demo_alloc : E (tensor := unit) (GATConv := unit) (MLP := unit) nat :=
  fun h => (Some (length h), h ++ [Floats tt]).

Definition demo_construct (es : list signed_edge)
    : nat * list (object (tensor := unit) (GATConv := unit) (MLP := unit)) :=
  construct (fun _ _ => tt) (fun _ _ e => e) 3 es 20 20 None (fun _ => tt) tt.

Definition demo_forward := forward (tensor := unit) (GATConv := unit) (MLP := unit)
  (fun _ _ _ => demo_alloc) (fun _ => demo_alloc) (fun _ _ => demo_alloc).

Definition demo_run := run (tensor := unit) (GATConv := unit) (MLP := unit)
  (fun _ _ _ => demo_alloc) (fun _ => demo_alloc) (fun _ _ => demo_alloc)
  (fun _ _ _ => demo_alloc).

(** Three nodes with a positive and a negative edge from each to each of the
    other two: none of the 38 views is empty. *)
Definition demo_edges_full : list signed_edge :=
  [(0, 1, 1); (0, 1, -1); (0, 2, 1); (0, 2, -1); (1, 0, 1); (1, 0, -1);
   (1, 2, 1); (1, 2, -1); (2, 0, 1); (2, 0, -1); (2, 1, 1); (2, 1, -1)].

Lemma demo_alloc_frame : frame demo_alloc.
Proof. intros h l o Hl. unfold demo_alloc. cbn [snd]. by apply lookup_app_l_Some. Qed.

Example forward_demo_full :
  let '(this, h0) := demo_construct demo_edges_full in
  this = 79%nat ∧ length h0 = 80%nat
  ∧ (demo_forward this h0).1 = Some 119%nat
  ∧ length (demo_forward this h0).2 = 120%nat.
Proof. vm_compute. done. Qed.

Lemma forward_loss_frame_witness :
  let '(this, h0) := demo_construct demo_edges_full in
  let h' := demo_run this [Forward; Loss; Forward] h0 in
  preserves h0 h'
  ∧ ∃ self,
      h0 !! this = Some (Instance self)
      ∧ h' !! this = Some (Instance self)
      ∧ Forall2 (fun l d => h' !! l = Some (Adj d))
                (ref_adj_lists self) (build_adj_lists demo_edges_full)
      ∧ Forall2 (fun l e => h' !! l = Some (Edges e))
                (ref_edge_lists self)
                (imap (fun _ e => e)
                   (map_adj_to_edges <$> build_adj_lists demo_edges_full))
      ∧ h' !! ref_pos_edge_index self
        = Some (Edges (select_edges (fun s => s > 0) demo_edges_full))
      ∧ h' !! ref_neg_edge_index self
        = Some (Edges (select_edges (fun s => s < 0) demo_edges_full)).
Proof.
  exact (forward_loss_frame (tensor := unit)
           (fun _ _ _ => demo_alloc) (fun _ => demo_alloc)
           (fun _ _ => demo_alloc) (fun _ _ _ => demo_alloc)
           (fun _ _ => tt) (fun _ _ e => e)
           (fun _ _ _ => demo_alloc_frame) (fun _ => demo_alloc_frame)
           (fun _ _ => demo_alloc_frame) (fun _ _ _ => demo_alloc_frame)
           3 demo_edges_full 20 20 None (fun _ => tt) tt [Forward; Loss; Forward]).
Defined.

Lemma forward_empty_view_witness :
  (∀ (es : list signed_edge) (i : nat) (e : edge_index), e ≡ₚ e)
  ∧ (6 < 38)%nat
  ∧ (∀ u v, ¬ has_edge (build_adj_lists demo_edges !!! 6%nat) u v)
  ∧ let '(this, h0) := demo_construct demo_edges in
    (demo_forward this h0).1 = None.
Proof.
  assert (∀ u v, ¬ has_edge (build_adj_lists demo_edges !!! 6%nat) u v) as He.
  { intros u v. replace (build_adj_lists demo_edges !!! 6%nat) with (∅ : adj)
      by (vm_compute; reflexivity). apply has_edge_empty. }
  split; [done|]. split; [lia|]. split; [exact He|].
  pose proof (forward_empty_view (tensor := unit)
                (fun _ _ _ => demo_alloc) (fun _ => demo_alloc)
                (fun _ _ => demo_alloc) (fun _ _ _ => demo_alloc)
                (fun _ _ => tt) (fun _ _ e => e)
                (fun _ _ _ => demo_alloc_frame)
                3 demo_edges 20 20 None (fun _ => tt) tt 6
                (fun _ _ e => reflexivity e) ltac:(lia) He) as H.
  unfold demo_construct, demo_forward.
  destruct (construct _ _ _ _ _ _ _ _ _) as [this h0].
  apply H, preserves_refl.
Defined.

End SiGAT.

(** ** DIGRAC *)

Module DIGRAC.

Section Model.

(** Scalars of a [FloatTensor] with their addition and multiplication; no
    law of arithmetic is assumed of them.  A two-dimensional tensor is the
    list of its rows. *)
Variable F : Type.
Variables fadd fmul : F → F → F.

#[local] Abbreviation matrix := (list (list F)).

(** The length of every row; two tensors of equal [shape] have as many rows
    and, row by row, as many columns. *)
Definition shape (a : matrix) : list nat := length <$> a.

(** [a] has [n] rows of [d] columns. *)
Definition is_matrix (n d : nat) (a : matrix) : Prop :=
  length a = n ∧ Forall (fun row => length row = d) a.

(** A [2 x E] edge-index tensor as its two rows; [edge_index[[1,0]]]. *)
Definition edge_index : Type := list Z * list Z.
Definition swap_rows (ei : edge_index) : edge_index := (ei.2, ei.1).

(** [w * x] for a one-element tensor [w], broadcast over [x]. *)
Definition smul (w : F) (a : matrix) : matrix :=
  (fun row : list F => fmul w <$> row) <$> a.

(** Entry-wise sum of two tensors of one shape. *)
Definition madd (a b : matrix) : matrix := zip_with (zip_with fadd) a b.

(** [a += b].  Operands of different shapes are not added: broadcasting a
    smaller right operand is left out of the model and counts as the
    failure of the call. *)
Definition iadd (a b : matrix) : option matrix :=
  if decide (shape a = shape b) then Some (madd a b) else None.

(** [torch.cat([a, b], dim=1)]: the rows of [a] extended by those of [b];
    fails unless both have as many rows. *)
Definition cat1 (a b : matrix) : option matrix :=
  if decide (length a = length b) then Some (zip_with app a b) else None.

(** [output + bias] for a vector [bias], added to every row; [bias] has as
    many entries as [_W_prob] has columns. *)
Definition add_bias (a : matrix) (bias : list F) : matrix :=
  (fun row => zip_with fadd row bias) <$> a.

(** The convolution layer [Conv_Base(fill_value)] of this package and the
    kernels of the tensor library are parameters of the model. *)
Variable edge_weight : Type.
Variable conv_layer : F → matrix → edge_index → edge_weight → matrix.
(* torch.mm, ReLU *)
Variables mm : matrix → matrix → matrix.
Variable relu : matrix → matrix.
(* F.softmax(_, dim=1), F.log_softmax(_, dim=1), F.normalize(_) with its
   defaults p = 2, dim = 1 and torch.argmax(_, dim=1) work along dim 1: row
   by row.  What they compute on one row is left to the tensor library. *)
Variables softmax_row log_softmax_row normalize_row : list F → list F.
Variable argmax_row : list F → Z.
(* Dropout(p) in the current mode of the module, drawing from the state of
   the random generator *)
Variable rng : Type.
Variable dropout : F → rng → matrix → matrix * rng.
(* the float 1.0 *)
Variable fone : F.

Record DIMPA := {
  _hop : nat;
  _w_s : list F;           (* shape (hop + 1, 1) *)
  _w_t : list F;           (* shape (hop + 1, 1) *)
  fill_value : F           (* of [conv_layer] *)
}.

(** [DIMPA.__init__] with [_reset_parameters]: [hop + 1] weights per side,
    all 1. *)
Definition DIMPA_init (hop : nat) (fv : F) : DIMPA :=
  {| _hop := hop;
     _w_s := replicate (S hop) fone;
     _w_t := replicate (S hop) fone;
     fill_value := fv |}.

(** The loop variables of [DIMPA.forward]. *)
Record hop_state := HopState {
  feat_s : matrix;
  feat_t : matrix;
  curr_s : matrix;
  curr_t : matrix
}.

(** One pass of [for h in range(1, 1 + self._hop)]. *)
Definition hop_body (m : DIMPA) (ei ei_t : edge_index) (ew : edge_weight)
    (st : hop_state) (h : nat) : option hop_state :=
  let curr_s := conv_layer (fill_value m) (curr_s st) ei ew in
  let curr_t := conv_layer (fill_value m) (curr_t st) ei_t ew in
  w_s_h ← _w_s m !! h;
  feat_s ← iadd (feat_s st) (smul w_s_h curr_s);
  w_t_h ← _w_t m !! h;
  feat_t ← iadd (feat_t st) (smul w_t_h curr_t);
  Some (HopState feat_s feat_t curr_s curr_t).

Fixpoint hop_loop (m : DIMPA) (ei ei_t : edge_index) (ew : edge_weight)
    (hs : list nat) (st : hop_state) : option hop_state :=
  match hs with
  | [] => Some st
  | h :: hs => st' ← hop_body m ei ei_t ew st h; hop_loop m ei ei_t ew hs st'
  end.

(** [DIMPA.forward]. *)
Definition DIMPA_forward (m : DIMPA) (x_s x_t : matrix) (ei : edge_index)
    (ew : edge_weight) : option matrix :=
  w_s_0 ← _w_s m !! 0%nat;
  w_t_0 ← _w_t m !! 0%nat;
  let st := HopState (smul w_s_0 x_s) (smul w_t_0 x_t) x_s x_t in
  let edge_index_t := swap_rows ei in
  st ← hop_loop m ei edge_index_t ew (seq 1 (_hop m)) st;
  cat1 (feat_s st) (feat_t st).

Record DIGRAC := {
  _num_clusters : nat;
  _w_s0 : matrix;
  _w_s1 : matrix;
  _w_t0 : matrix;
  _w_t1 : matrix;
  _dimpa : DIMPA;
  dropout_p : F;
  _bias : list F;
  _W_prob : matrix
}.

(** [torch.argmax(output, dim=1)]: one label per row; there is no arg-max
    over zero columns, and [output] has as many columns as there are
    clusters. *)
Definition argmax_dim1 (num_clusters : nat) (output : matrix) : option (list Z) :=
  if decide (num_clusters = 0%nat) then None else Some (argmax_row <$> output).

(** [DIGRAC.forward]; the generator state consumed by the two dropouts is
    threaded through. *)
Definition DIGRAC_forward (m : DIGRAC) (g : rng) (ei : edge_index)
    (ew : edge_weight) (features : matrix)
    : option (matrix * matrix * list Z * matrix) * rng :=
  let x_s := mm features (_w_s0 m) in
  let x_s := relu x_s in
  let '(x_s, g) := dropout (dropout_p m) g x_s in
  let x_s := mm x_s (_w_s1 m) in
  let x_t := mm features (_w_t0 m) in
  let x_t := relu x_t in
  let '(x_t, g) := dropout (dropout_p m) g x_t in
  let x_t := mm x_t (_w_t1 m) in
  (z ← DIMPA_forward (_dimpa m) x_s x_t ei ew;
   let output := mm z (_W_prob m) in
   let output := add_bias output (_bias m) in
   predictions_cluster ← argmax_dim1 (_num_clusters m) output;
   let prob := softmax_row <$> output in
   let output := log_softmax_row <$> output in
   Some (normalize_row <$> z, output, predictions_cluster, prob),
   g).

(** *** The aggregate in the words of its contract *)

(** [h] applications of the convolution layer along [ei]. *)
Definition hops (fv : F) (ei : edge_index) (ew : edge_weight) (h : nat)
    (x : matrix) : matrix :=
  Nat.iter h (fun c => conv_layer fv c ei ew) x.

(** The sum of a non-empty list of tensors, from the left. *)
Definition sum_terms (ts : list matrix) : matrix :=
  match ts with
  | [] => []
  | t :: ts => foldl madd t ts
  end.

(** Sum over [h = 0 .. H] of [w[h]] times the [h]-fold convolution of [x]. *)
Definition hop_sum (fv : F) (w : list F) (x : matrix) (ei : edge_index)
    (ew : edge_weight) (H : nat) : matrix :=
  sum_terms (zip_with (fun w_h h => smul w_h (hops fv ei ew h x)) w (seq 0 (S H))).

(** The loop variables after the passes [h = 1 .. k]. *)
Definition state_at (m : DIMPA) (x_s x_t : matrix) (ei : edge_index)
    (ew : edge_weight) (k : nat) : hop_state :=
  HopState (hop_sum (fill_value m) (_w_s m) x_s ei ew k)
           (hop_sum (fill_value m) (_w_t m) x_t (swap_rows ei) ew k)
           (hops (fill_value m) ei ew k x_s)
           (hops (fill_value m) (swap_rows ei) ew k x_t).

(** Entry [(i, c)] of the sum over [h = 0 .. H] of [w[h]] times the
    [h]-fold convolution of [x] along [ei], added up from [h = 0] on.  [x0]
    is entry [(i, c)] of [x] itself, and stands in where a list has no such
    position. *)
Definition hop_entry (fv : F) (w : list F) (x : matrix) (ei : edge_index)
    (ew : edge_weight) (H i c : nat) (x0 : F) : F :=
  foldl (fun acc h =>
           fadd acc (fmul (nth h w x0) (nth c (nth i (hops fv ei ew h x) []) x0)))
        (fmul (nth 0 w x0) x0) (seq 1 H).

(** The tensor of these sums, of the shape of [x]. *)
Definition hop_total (fv : F) (w : list F) (x : matrix) (ei : edge_index)
    (ew : edge_weight) (H : nat) : matrix :=
  imap (fun i row => imap (fun c x0 => hop_entry fv w x ei ew H i c x0) row) x.

(** *** Shapes *)

Lemma DIMPA_init_weights hop fv :
  length (_w_s (DIMPA_init hop fv)) = S hop
  ∧ length (_w_t (DIMPA_init hop fv)) = S hop.
Proof. simpl. by rewrite length_replicate. Qed.

Lemma is_matrix_shape n d (a : matrix) : is_matrix n d a ↔ shape a = replicate n d.
Proof.
  unfold is_matrix, shape. revert n. induction a as [|row a IH]; intros n; simpl.
  - split; [by intros [<- _]|]. destruct n; [done|discriminate].
  - destruct n as [|n]; simpl; [split; [by intros [? _]|discriminate]|].
    rewrite Forall_cons. split.
    + intros [[= Hn] [Hr Ha]]. f_equal; [done|]. by apply IH.
    + intros [= Hr Ha]. apply IH in Ha as [? ?]. auto.
Qed.

Lemma shape_smul w (a : matrix) : shape (smul w a) = shape a.
Proof.
  unfold shape, smul. rewrite <- list_fmap_compose. apply list_fmap_ext.
  intros _ row _. simpl. apply length_fmap.
Qed.

Lemma shape_madd (a b : matrix) : shape a = shape b → shape (madd a b) = shape a.
Proof.
  unfold shape, madd. revert b.
  induction a as [|ra a IH]; intros [|rb b]; simpl; try done.
  intros [= Hr Hab]. f_equal; [|by apply IH]. rewrite length_zip_with. lia.
Qed.

Lemma iadd_same_shape (a b : matrix) : shape a = shape b → iadd a b = Some (madd a b).
Proof. intros H. unfold iadd. by rewrite decide_True. Qed.

Lemma shape_length (a b : matrix) : shape a = shape b → length a = length b.
Proof. unfold shape. intros H. by rewrite <- (length_fmap length a), H, length_fmap. Qed.

Lemma shape_cat_rows n d e (a b : matrix) :
  is_matrix n d a → is_matrix n e b → is_matrix n (d + e) (zip_with app a b).
Proof.
  unfold is_matrix. revert n b.
  induction a as [|ra a IH]; intros n b [Hn Ha] [Hm Hb].
  - done.
  - destruct b as [|rb b]; [simpl in *; lia|].
    apply Forall_cons in Ha as [? Ha], Hb as [? Hb]. simpl in Hn, Hm.
    destruct (IH (length a) b) as [? ?]; [split; [done|done]|split; [lia|done]|].
    simpl. split; [lia|]. apply Forall_cons. rewrite length_app. split; [lia|done].
Qed.

(** *** The loop of [DIMPA.forward] *)

Lemma hop_loop_app m ei ei_t ew hs1 hs2 st :
  hop_loop m ei ei_t ew (hs1 ++ hs2) st =
  hop_loop m ei ei_t ew hs1 st ≫= hop_loop m ei ei_t ew hs2.
Proof.
  revert st. induction hs1 as [|h hs1 IH]; intros st; simpl; [done|].
  destruct (hop_body m ei ei_t ew st h) as [st'|]; simpl; [apply IH|done].
Qed.

Lemma zip_with_seq_snoc {A B} (f : A → nat → B) (l : list A) a : ∀ s n,
  l !! n = Some a →
  zip_with f l (seq s (S n)) = zip_with f l (seq s n) ++ [f a (s + n)%nat].
Proof.
  revert a. induction l as [|x l IH]; intros a s n Hl; [done|].
  destruct n as [|n].
  - simpl in Hl. injection Hl as ->. simpl. rewrite Nat.add_0_r. by destruct l.
  - simpl in Hl.
    change (zip_with f (x :: l) (seq s (S (S n))))
      with (f x s :: zip_with f l (seq (S s) (S n))).
    change (zip_with f (x :: l) (seq s (S n)))
      with (f x s :: zip_with f l (seq (S s) n)).
    rewrite (IH a (S s) n Hl).
    replace (S s + n)%nat with (s + S n)%nat by lia. done.
Qed.

Lemma sum_terms_snoc (ts : list matrix) t :
  ts ≠ [] → sum_terms (ts ++ [t]) = madd (sum_terms ts) t.
Proof.
  destruct ts as [|t0 ts]; [done|]. intros _. simpl. by rewrite foldl_app.
Qed.

Lemma hop_sum_0 fv w0 w (x : matrix) ei ew :
  hop_sum fv (w0 :: w) x ei ew 0 = smul w0 x.
Proof. unfold hop_sum. simpl. by destruct w. Qed.

Lemma hop_sum_S fv w (x : matrix) ei ew k w_h :
  w !! S k = Some w_h →
  hop_sum fv w x ei ew (S k) =
  madd (hop_sum fv w x ei ew k) (smul w_h (hops fv ei ew (S k) x)).
Proof.
  intros Hw. unfold hop_sum. rewrite (zip_with_seq_snoc _ w w_h 0 (S k) Hw).
  rewrite sum_terms_snoc; [done|]. destruct w; [done|]. simpl. done.
Qed.

Section Conv.

(** The convolution layer maps node features to node features of the same
    shape. *)
Hypothesis conv_shape : ∀ fv x ei ew, shape (conv_layer fv x ei ew) = shape x.

Lemma shape_hops fv ei ew h x : shape (hops fv ei ew h x) = shape x.
Proof using conv_shape.
  unfold hops. induction h as [|h IH]; simpl; [done|]. by rewrite conv_shape.
Qed.

Lemma shape_hop_sum fv w x ei ew k :
  (k < length w)%nat → shape (hop_sum fv w x ei ew k) = shape x.
Proof using conv_shape.
  induction k as [|k IH]; intros Hk.
  - destruct w as [|w0 w]; [simpl in Hk; lia|]. by rewrite hop_sum_0, shape_smul.
  - destruct (lookup_lt_is_Some_2 w (S k) Hk) as [w_h Hw].
    rewrite (hop_sum_S _ _ _ _ _ _ _ Hw), shape_madd; [apply IH; lia|].
    rewrite shape_smul, shape_hops. apply IH. lia.
Qed.

Lemma hop_body_state_at m x_s x_t ei ew k :
  (S k < length (_w_s m))%nat → (S k < length (_w_t m))%nat →
  hop_body m ei (swap_rows ei) ew (state_at m x_s x_t ei ew k) (S k)
  = Some (state_at m x_s x_t ei ew (S k)).
Proof using conv_shape.
  intros Hs Ht. unfold hop_body, state_at. cbn [feat_s feat_t curr_s curr_t].
  destruct (lookup_lt_is_Some_2 _ _ Hs) as [ws Hws].
  destruct (lookup_lt_is_Some_2 _ _ Ht) as [wt Hwt].
  rewrite Hws, Hwt. cbn [mbind option_bind].
  change (conv_layer (fill_value m) (hops (fill_value m) ei ew k x_s) ei ew)
    with (hops (fill_value m) ei ew (S k) x_s).
  change (conv_layer (fill_value m) (hops (fill_value m) (swap_rows ei) ew k x_t)
            (swap_rows ei) ew)
    with (hops (fill_value m) (swap_rows ei) ew (S k) x_t).
  rewrite !iadd_same_shape; cbn [mbind option_bind].
  - by rewrite (hop_sum_S _ _ _ _ _ _ _ Hws), (hop_sum_S _ _ _ _ _ _ _ Hwt).
  - rewrite shape_smul, shape_hops. apply shape_hop_sum. lia.
  - rewrite shape_smul, shape_hops. apply shape_hop_sum. lia.
Qed.

Lemma hop_loop_state_at m x_s x_t ei ew k :
  (k < length (_w_s m))%nat → (k < length (_w_t m))%nat →
  hop_loop m ei (swap_rows ei) ew (seq 1 k) (state_at m x_s x_t ei ew 0)
  = Some (state_at m x_s x_t ei ew k).
Proof using conv_shape.
  induction k as [|k IH]; intros Hs Ht; [done|].
  rewrite seq_S, hop_loop_app, IH by lia. cbn [mbind option_bind hop_loop].
  rewrite hop_body_state_at by done. done.
Qed.

(** With [hop + 1] weights per side the loop runs to its end, whatever the
    shapes of the two inputs; what is left is the concatenation. *)
Lemma DIMPA_forward_cat m x_s x_t ei ew :
  length (_w_s m) = S (_hop m) → length (_w_t m) = S (_hop m) →
  DIMPA_forward m x_s x_t ei ew
  = cat1 (hop_sum (fill_value m) (_w_s m) x_s ei ew (_hop m))
         (hop_sum (fill_value m) (_w_t m) x_t (swap_rows ei) ew (_hop m)).
Proof using conv_shape.
  intros Ls Lt. unfold DIMPA_forward.
  pose proof (hop_loop_state_at m x_s x_t ei ew (_hop m)) as Hloop.
  unfold state_at at 1 in Hloop.
  destruct (_w_s m) as [|w_s_0 w_s] eqn:Es; [discriminate|].
  destruct (_w_t m) as [|w_t_0 w_t] eqn:Et; [discriminate|].
  cbn [lookup list_lookup mbind option_bind].
  rewrite !hop_sum_0 in Hloop.
  change (hops (fill_value m) ei ew 0 x_s) with x_s in Hloop.
  change (hops (fill_value m) (swap_rows ei) ew 0 x_t) with x_t in Hloop.
  simpl in Ls, Lt. rewrite Hloop by (simpl; lia). cbn [mbind option_bind].
  unfold state_at. cbn [feat_s feat_t]. by rewrite Es, Et.
Qed.

(** X11: source and target features need not be equally wide.  For [n]
    nodes, [d1] source columns and [d2] target columns, [DIMPA.forward]
    returns a tensor of [n] rows and [d1 + d2] columns. *)
Theorem DIMPA_forward_widths m x_s x_t ei ew n d1 d2 :
  length (_w_s m) = S (_hop m) → length (_w_t m) = S (_hop m) →
  is_matrix n d1 x_s → is_matrix n d2 x_t →
  ∃ out, DIMPA_forward m x_s x_t ei ew = Some out ∧ is_matrix n (d1 + d2) out.
Proof using conv_shape.
  intros Ls Lt Hs Ht. rewrite DIMPA_forward_cat by done.
  set (fs := hop_sum (fill_value m) (_w_s m) x_s ei ew (_hop m)).
  set (ft := hop_sum (fill_value m) (_w_t m) x_t (swap_rows ei) ew (_hop m)).
  assert (is_matrix n d1 fs) as Hfs.
  { apply is_matrix_shape. unfold fs. rewrite shape_hop_sum by lia.
    by apply is_matrix_shape. }
  assert (is_matrix n d2 ft) as Hft.
  { apply is_matrix_shape. unfold ft. rewrite shape_hop_sum by lia.
    by apply is_matrix_shape. }
  exists (zip_with app fs ft). split; [|by apply shape_cat_rows].
  unfold cat1. rewrite decide_True; [done|].
  destruct Hfs as [-> _], Hft as [-> _]. done.
Qed.

(** X12: source and target features for different numbers of nodes.  When
    the convolution layer returns at every hop, the loop over the hops runs
    to its end, with accumulators of as many rows as the two inputs; then
    [torch.cat] along dim 1 is refused and [DIMPA.forward] fails. *)
Theorem DIMPA_forward_row_mismatch m x_s x_t ei ew :
  length (_w_s m) = S (_hop m) → length (_w_t m) = S (_hop m) →
  length x_s ≠ length x_t →
  ∃ w_s_0 w_t_0 st,
    _w_s m !! 0%nat = Some w_s_0 ∧ _w_t m !! 0%nat = Some w_t_0
    ∧ hop_loop m ei (ei.2, ei.1) ew (seq 1 (_hop m))
        (HopState (smul w_s_0 x_s) (smul w_t_0 x_t) x_s x_t) = Some st
    ∧ length (feat_s st) = length x_s
    ∧ length (feat_t st) = length x_t
    ∧ cat1 (feat_s st) (feat_t st) = None
    ∧ DIMPA_forward m x_s x_t ei ew = None.
Proof using conv_shape.
  intros Ls Lt Hne.
  pose proof (DIMPA_forward_cat m x_s x_t ei ew Ls Lt) as Hcat.
  pose proof (hop_loop_state_at m x_s x_t ei ew (_hop m)) as Hloop.
  unfold state_at at 1 in Hloop.
  set (fs := hop_sum (fill_value m) (_w_s m) x_s ei ew (_hop m)) in *.
  set (ft := hop_sum (fill_value m) (_w_t m) x_t (swap_rows ei) ew (_hop m)) in *.
  assert (length fs = length x_s) as Efs
    by (apply shape_length, shape_hop_sum; lia).
  assert (length ft = length x_t) as Eft
    by (apply shape_length, shape_hop_sum; lia).
  assert (cat1 fs ft = None) as Hnone.
  { unfold cat1. rewrite decide_False; [done|]. by rewrite Efs, Eft. }
  destruct (_w_s m) as [|w_s_0 w_s] eqn:Es; [discriminate|].
  destruct (_w_t m) as [|w_t_0 w_t] eqn:Et; [discriminate|].
  rewrite !hop_sum_0 in Hloop.
  change (hops (fill_value m) ei ew 0 x_s) with x_s in Hloop.
  change (hops (fill_value m) (swap_rows ei) ew 0 x_t) with x_t in Hloop.
  simpl in Ls, Lt.
  exists w_s_0, w_t_0, (state_at m x_s x_t ei ew (_hop m)).
  split; [done|]. split; [done|]. split; [apply Hloop; simpl; lia|].
  unfold state_at. cbn [feat_s feat_t]. rewrite Es, Et. fold fs ft.
  rewrite Hcat. done.
Qed.

(** *** The aggregate, entry by entry *)

Lemma entry_exists (a x : matrix) i c row x0 :
  shape a = shape x → x !! i = Some row → row !! c = Some x0 →
  ∃ ra e, a !! i = Some ra ∧ length ra = length row ∧ ra !! c = Some e.
Proof using Type.
  intros Hsh Hi Hc. unfold shape in Hsh.
  assert ((length <$> a) !! i = Some (length row)) as Hl
    by (by rewrite Hsh, list_lookup_fmap, Hi).
  rewrite list_lookup_fmap in Hl.
  destruct (a !! i) as [ra|] eqn:Ea; [|discriminate]. injection Hl as Hl.
  destruct (lookup_lt_is_Some_2 ra c) as [e He].
  { rewrite Hl. by eapply lookup_lt_Some. }
  eauto.
Qed.

Lemma hop_entry_S fv w x ei ew k i c x0 :
  hop_entry fv w x ei ew (S k) i c x0
  = fadd (hop_entry fv w x ei ew k i c x0)
         (fmul (nth (S k) w x0) (nth c (nth i (hops fv ei ew (S k) x) []) x0)).
Proof using Type. unfold hop_entry. by rewrite seq_S, foldl_app. Qed.

Lemma hop_sum_entry fv w x ei ew i c row x0 : ∀ k,
  (k < length w)%nat → x !! i = Some row → row !! c = Some x0 →
  ∃ rk, hop_sum fv w x ei ew k !! i = Some rk
        ∧ rk !! c = Some (hop_entry fv w x ei ew k i c x0).
Proof using conv_shape.
  induction k as [|k IH]; intros Hk Hi Hc.
  - destruct w as [|w0 w]; [simpl in Hk; lia|]. rewrite hop_sum_0.
    exists (fmul w0 <$> row). unfold smul.
    rewrite list_lookup_fmap, Hi. split; [done|].
    by rewrite list_lookup_fmap, Hc.
  - destruct (lookup_lt_is_Some_2 w (S k) Hk) as [w_h Hw].
    destruct (IH ltac:(lia) Hi Hc) as (rk & Hrk & Hek).
    destruct (entry_exists (hops fv ei ew (S k) x) x i c row x0
                (shape_hops fv ei ew (S k) x) Hi Hc) as (rh & e & Hrh & _ & He).
    rewrite (hop_sum_S _ _ _ _ _ _ _ Hw), hop_entry_S.
    rewrite (nth_lookup_Some _ _ _ _ Hw), (nth_lookup_Some _ _ _ _ Hrh),
      (nth_lookup_Some _ _ _ _ He).
    exists (zip_with fadd rk (fmul w_h <$> rh)). unfold madd, smul. split.
    + by rewrite lookup_zip_with, Hrk, list_lookup_fmap, Hrh.
    + by rewrite lookup_zip_with, Hek, list_lookup_fmap, He.
Qed.

Lemma hop_sum_total fv w x ei ew k :
  (k < length w)%nat → hop_sum fv w x ei ew k = hop_total fv w x ei ew k.
Proof using conv_shape.
  intros Hk. pose proof (shape_hop_sum fv w x ei ew k Hk) as Hsh.
  apply list_eq. intros i. unfold hop_total. rewrite list_lookup_imap.
  destruct (x !! i) as [row|] eqn:Hi; cbn.
  - assert (∃ rk, hop_sum fv w x ei ew k !! i = Some rk ∧ length rk = length row)
      as (rk & Hrk & Hlen).
    { unfold shape in Hsh.
      assert ((length <$> hop_sum fv w x ei ew k) !! i = Some (length row)) as Hl
        by (by rewrite Hsh, list_lookup_fmap, Hi).
      rewrite list_lookup_fmap in Hl.
      destruct (hop_sum fv w x ei ew k !! i) as [rk|]; [|discriminate].
      injection Hl as Hl. eauto. }
    rewrite Hrk. f_equal. apply list_eq. intros c. rewrite list_lookup_imap.
    destruct (row !! c) as [x0|] eqn:Hc; cbn.
    + destruct (hop_sum_entry fv w x ei ew i c row x0 k Hk Hi Hc) as (rk' & Hrk' & He).
      congruence.
    + apply lookup_ge_None_2. rewrite Hlen. by apply lookup_ge_None_1.
  - apply lookup_ge_None_2. rewrite (shape_length _ _ Hsh).
    by apply lookup_ge_None_1.
Qed.

(** C2: with [hop + 1] weights per side and source and target features of
    [n] rows and [d] columns, [DIMPA.forward] returns the rows of [feat_s]
    each followed by the row of [feat_t].  Entry [(i, c)] of [feat_s] is the
    sum over [h = 0 .. hop] of [w_s[h]] times entry [(i, c)] of the [h]-fold
    convolution of [x_s] along [edge_index]; [feat_t] is the same sum for
    [x_t] and [w_t] with the convolution along rows 1 and 0 of [edge_index]
    in this order.  The result has [n] rows of [2 * d] columns. *)
Theorem DIMPA_forward_hop_sum m x_s x_t ei ew n d :
  length (_w_s m) = S (_hop m) → length (_w_t m) = S (_hop m) →
  is_matrix n d x_s → is_matrix n d x_t →
  let fs := hop_total (fill_value m) (_w_s m) x_s ei ew (_hop m) in
  let ft := hop_total (fill_value m) (_w_t m) x_t (ei.2, ei.1) ew (_hop m) in
  DIMPA_forward m x_s x_t ei ew = Some (zip_with app fs ft)
  ∧ is_matrix n d fs ∧ is_matrix n d ft
  ∧ is_matrix n (2 * d) (zip_with app fs ft).
Proof using conv_shape.
  intros Ls Lt Hs Ht fs ft.
  assert (fs = hop_sum (fill_value m) (_w_s m) x_s ei ew (_hop m)) as Efs
    by (unfold fs; rewrite hop_sum_total; [done|lia]).
  assert (ft = hop_sum (fill_value m) (_w_t m) x_t (swap_rows ei) ew (_hop m)) as Eft
    by (unfold ft; rewrite hop_sum_total; [done|lia]).
  assert (is_matrix n d fs) as Hfs.
  { apply is_matrix_shape. rewrite Efs, shape_hop_sum by lia.
    by apply is_matrix_shape. }
  assert (is_matrix n d ft) as Hft.
  { apply is_matrix_shape. rewrite Eft, shape_hop_sum by lia.
    by apply is_matrix_shape. }
  split; [|split; [done|split; [done|]]].
  - rewrite DIMPA_forward_cat, <- Efs, <- Eft by done.
    unfold cat1. rewrite decide_True; [done|].
    destruct Hfs as [-> _], Hft as [-> _]. done.
  - replace (2 * d)%nat with (d + d)%nat by lia. by apply shape_cat_rows.
Qed.

(** C1: on well-formed input [DIGRAC.forward] returns a 4-tuple.  With [z]
    the embedding that [DIMPA.forward] returns for the two hidden
    representations, the four components have one row (one label) per node,
    and for node [i]: row [i] of the first is [F.normalize] of row [i] of
    [z]; the logits of the node are row [i] of [z * W_prob] with the bias
    added entry by entry; row [i] of [output] is the log-softmax of these
    logits, label [i] their arg-max and row [i] of [prob] their softmax. *)
Theorem DIGRAC_forward_outputs m g ei ew features :
  (∀ a b, length (mm a b) = length a) →
  (∀ a, length (relu a) = length a) →
  (∀ p g a, length (dropout p g a).1 = length a) →
  length (_w_s (_dimpa m)) = S (_hop (_dimpa m)) →
  length (_w_t (_dimpa m)) = S (_hop (_dimpa m)) →
  (0 < _num_clusters m)%nat →
  let d_s := dropout (dropout_p m) g (relu (mm features (_w_s0 m))) in
  let x_s := mm d_s.1 (_w_s1 m) in
  let d_t := dropout (dropout_p m) d_s.2 (relu (mm features (_w_t0 m))) in
  let x_t := mm d_t.1 (_w_t1 m) in
  ∃ z z' output pred prob,
    DIMPA_forward (_dimpa m) x_s x_t ei ew = Some z
    ∧ DIGRAC_forward m g ei ew features = (Some (z', output, pred, prob), d_t.2)
    ∧ length z = length features
    ∧ length z' = length features
    ∧ length output = length features
    ∧ length pred = length features
    ∧ length prob = length features
    ∧ ∀ i z_i, z !! i = Some z_i →
        ∃ a_i, mm z (_W_prob m) !! i = Some a_i
          ∧ z' !! i = Some (normalize_row z_i)
          ∧ output !! i = Some (log_softmax_row (zip_with fadd a_i (_bias m)))
          ∧ pred !! i = Some (argmax_row (zip_with fadd a_i (_bias m)))
          ∧ prob !! i = Some (softmax_row (zip_with fadd a_i (_bias m))).
Proof using conv_shape.
  intros Hmm Hrelu Hdrop Ls Lt HK d_s x_s d_t x_t.
  assert (length x_s = length features) as Hxs.
  { unfold x_s, d_s. by rewrite Hmm, Hdrop, Hrelu, Hmm. }
  assert (length x_t = length features) as Hxt.
  { unfold x_t, d_t. by rewrite Hmm, Hdrop, Hrelu, Hmm. }
  pose proof (DIMPA_forward_cat (_dimpa m) x_s x_t ei ew Ls Lt) as Hcat.
  set (fs := hop_sum (fill_value (_dimpa m)) (_w_s (_dimpa m)) x_s ei ew
               (_hop (_dimpa m))) in *.
  set (ft := hop_sum (fill_value (_dimpa m)) (_w_t (_dimpa m)) x_t (swap_rows ei) ew
               (_hop (_dimpa m))) in *.
  assert (length fs = length x_s) as Efs
    by (apply shape_length, shape_hop_sum; lia).
  assert (length ft = length x_t) as Eft
    by (apply shape_length, shape_hop_sum; lia).
  unfold cat1 in Hcat. rewrite decide_True in Hcat by congruence.
  set (z := zip_with app fs ft) in *.
  assert (length z = length features) as Hz.
  { unfold z. rewrite length_zip_with. lia. }
  exists z, (normalize_row <$> z),
    (log_softmax_row <$> add_bias (mm z (_W_prob m)) (_bias m)),
    (argmax_row <$> add_bias (mm z (_W_prob m)) (_bias m)),
    (softmax_row <$> add_bias (mm z (_W_prob m)) (_bias m)).
  split; [done|]. split.
  { unfold DIGRAC_forward. fold d_s. destruct d_s as [xs1 g1] eqn:Eds.
    cbn [fst snd] in *. fold d_t. destruct d_t as [xt1 g2] eqn:Edt.
    cbn [fst snd] in *. fold x_s x_t. rewrite Hcat. cbn [mbind option_bind].
    unfold argmax_dim1. rewrite decide_False by lia. done. }
  unfold add_bias. rewrite !length_fmap, Hmm.
  split; [done|]. split; [done|]. split; [done|]. split; [done|]. split; [done|].
  intros i z_i Hi.
  destruct (lookup_lt_is_Some_2 (mm z (_W_prob m)) i) as [a_i Ha].
  { rewrite Hmm. by eapply lookup_lt_Some. }
  exists a_i. rewrite !list_lookup_fmap, Ha, Hi. done.
Qed.

End Conv.

End Model.

(** *** A run on integer scalars *)

(** A stand-in convolution that doubles every entry, a two-hop aggregator
    and two nodes with two features each. *)
Definition demo_conv (fv : Z) (x : list (list Z)) (ei : edge_index) (ew : unit)
    : list (list Z) :=
  (fun row : list Z => Z.mul 2 <$> row) <$> x.

Definition demo_dimpa : DIMPA Z :=
  {| _hop := 2; _w_s := [1; 1; 1]; _w_t := [1; 2; 3]; fill_value := 0 |}.

Definition demo_x_s : list (list Z) := [[1; 2]; [3; 4]].
Definition demo_x_t : list (list Z) := [[5; 6]; [7; 8]].
Definition demo_ei : edge_index := ([0; 1], [1; 0]).

Lemma demo_conv_shape fv x ei ew : shape Z (demo_conv fv x ei ew) = shape Z x.
Proof.
  unfold shape, demo_conv. rewrite <- list_fmap_compose. apply list_fmap_ext.
  intros _ row _. simpl. apply length_fmap.
Qed.

Example DIMPA_forward_demo :
  DIMPA_forward Z Z.add Z.mul unit demo_conv demo_dimpa demo_x_s demo_x_t demo_ei tt
  = Some [[7; 14; 85; 102]; [21; 28; 119; 136]].
Proof. reflexivity. Qed.

(** A stand-in convolution that follows the edges: row [i] is scaled by one
    plus the number of edges that end in node [i]. *)
Definition demo_conv_along (fv : Z) (x : list (list Z)) (ei : edge_index)
    (ew : unit) : list (list Z) :=
  imap (fun i row =>
          Z.mul (1 + Z.of_nat (length (filter (fun t => t = Z.of_nat i) ei.2)))
            <$> row) x.

(** Edges 0 -> 1, 0 -> 1 and 1 -> 0. *)
Definition demo_ei_along : edge_index := ([0; 0; 1], [1; 1; 0]).

Lemma demo_conv_along_shape fv x ei ew :
  shape Z (demo_conv_along fv x ei ew) = shape Z x.
Proof.
  unfold shape, demo_conv_along. apply list_eq. intros i.
  rewrite !list_lookup_fmap, list_lookup_imap.
  destruct (x !! i) as [row|]; [|done]. cbn. by rewrite length_fmap.
Qed.

Example DIMPA_forward_demo_along :
  DIMPA_forward Z Z.add Z.mul unit demo_conv_along demo_dimpa demo_x_s demo_x_t
    demo_ei_along tt
  = Some [[7; 14; 170; 204]; [39; 52; 119; 136]].
Proof. reflexivity. Qed.

Lemma DIMPA_forward_hop_sum_witness :
  length (_w_s Z demo_dimpa) = S (_hop Z demo_dimpa)
  ∧ length (_w_t Z demo_dimpa) = S (_hop Z demo_dimpa)
  ∧ is_matrix Z 2 2 demo_x_s ∧ is_matrix Z 2 2 demo_x_t
  ∧ let fs := hop_total Z Z.add Z.mul unit demo_conv_along 0 [1; 1; 1] demo_x_s
                demo_ei_along tt 2 in
    let ft := hop_total Z Z.add Z.mul unit demo_conv_along 0 [1; 2; 3] demo_x_t
                ([1; 1; 0], [0; 0; 1]) tt 2 in
    DIMPA_forward Z Z.add Z.mul unit demo_conv_along demo_dimpa demo_x_s demo_x_t
      demo_ei_along tt = Some (zip_with app fs ft)
    ∧ is_matrix Z 2 2 fs ∧ is_matrix Z 2 2 ft
    ∧ is_matrix Z 2 (2 * 2) (zip_with app fs ft).
Proof.
  assert (is_matrix Z 2 2 demo_x_s) as Hs by (split; [done|by repeat constructor]).
  assert (is_matrix Z 2 2 demo_x_t) as Ht by (split; [done|by repeat constructor]).
  split; [done|]. split; [done|]. split; [done|]. split; [done|].
  apply (DIMPA_forward_hop_sum Z Z.add Z.mul unit demo_conv_along
           demo_conv_along_shape demo_dimpa demo_x_s demo_x_t demo_ei_along tt 2 2
           eq_refl eq_refl Hs Ht).
Defined.

Definition demo_x_t_narrow : list (list Z) := [[5]; [7]].
Definition demo_x_t_long : list (list Z) := [[5; 6]; [7; 8]; [9; 10]].

Lemma DIMPA_forward_widths_witness :
  length (_w_s Z demo_dimpa) = S (_hop Z demo_dimpa)
  ∧ length (_w_t Z demo_dimpa) = S (_hop Z demo_dimpa)
  ∧ is_matrix Z 2 2 demo_x_s ∧ is_matrix Z 2 1 demo_x_t_narrow
  ∧ ∃ out,
      DIMPA_forward Z Z.add Z.mul unit demo_conv demo_dimpa demo_x_s
        demo_x_t_narrow demo_ei tt = Some out
      ∧ is_matrix Z 2 (2 + 1) out.
Proof.
  assert (is_matrix Z 2 2 demo_x_s) as Hs by (split; [done|by repeat constructor]).
  assert (is_matrix Z 2 1 demo_x_t_narrow) as Ht
    by (split; [done|by repeat constructor]).
  split; [done|]. split; [done|]. split; [done|]. split; [done|].
  apply (DIMPA_forward_widths Z Z.add Z.mul unit demo_conv demo_conv_shape
           demo_dimpa demo_x_s demo_x_t_narrow demo_ei tt 2 2 1
           eq_refl eq_refl Hs Ht).
Defined.

Lemma DIMPA_forward_row_mismatch_witness :
  length (_w_s Z demo_dimpa) = S (_hop Z demo_dimpa)
  ∧ length (_w_t Z demo_dimpa) = S (_hop Z demo_dimpa)
  ∧ length demo_x_s ≠ length demo_x_t_long
  ∧ ∃ w_s_0 w_t_0 st,
      _w_s Z demo_dimpa !! 0%nat = Some w_s_0
      ∧ _w_t Z demo_dimpa !! 0%nat = Some w_t_0
      ∧ hop_loop Z Z.add Z.mul unit demo_conv_along demo_dimpa demo_ei_along
          (demo_ei_along.2, demo_ei_along.1) tt (seq 1 (_hop Z demo_dimpa))
          (HopState Z (smul Z Z.mul w_s_0 demo_x_s) (smul Z Z.mul w_t_0 demo_x_t_long)
             demo_x_s demo_x_t_long) = Some st
      ∧ length (feat_s Z st) = length demo_x_s
      ∧ length (feat_t Z st) = length demo_x_t_long
      ∧ cat1 Z (feat_s Z st) (feat_t Z st) = None
      ∧ DIMPA_forward Z Z.add Z.mul unit demo_conv_along demo_dimpa demo_x_s
          demo_x_t_long demo_ei_along tt = None.
Proof.
  assert (length demo_x_s ≠ length demo_x_t_long) as Hne by (simpl; lia).
  split; [done|]. split; [done|]. split; [done|].
  apply (DIMPA_forward_row_mismatch Z Z.add Z.mul unit demo_conv_along
           demo_conv_along_shape demo_dimpa demo_x_s demo_x_t_long demo_ei_along tt
           eq_refl eq_refl Hne).
Defined.

(** A run of [DIGRAC.forward]: the product of integer matrices, ReLU, a
    dropout in evaluation mode (the identity), the index of the first
    largest entry as arg-max, and stand-ins for the three floating-point
    row kernels. *)
Definition demo_mm (a b : list (list Z)) : list (list Z) :=
  (fun row : list Z =>
     foldr (zip_with Z.add) (replicate (length (hd [] b)) 0)
       (zip_with (fun x brow => Z.mul x <$> brow) row b)) <$> a.

Definition demo_relu (a : list (list Z)) : list (list Z) :=
  (fun row : list Z => Z.max 0 <$> row) <$> a.

Definition demo_dropout (p : Z) (g : unit) (a : list (list Z))
    : list (list Z) * unit := (a, g).

Definition demo_argmax_row (row : list Z) : Z :=
  (foldl (fun '(best, besti, i) x =>
            if decide (best < x) then (x, i, i + 1) else (best, besti, i + 1))
         (hd 0 row, 0, 0) row).1.2.

Definition demo_softmax_row (row : list Z) : list Z := Z.mul 2 <$> row.
Definition demo_log_softmax_row (row : list Z) : list Z := Z.opp <$> row.
Definition demo_normalize_row (row : list Z) : list Z := Z.sgn <$> row.

Definition demo_digrac : DIGRAC Z :=
  {| _num_clusters := 2;
     _w_s0 := [[1; 0]; [0; 1]]; _w_s1 := [[1; 1]; [0; 1]];
     _w_t0 := [[0; 1]; [1; 0]]; _w_t1 := [[1; 0]; [1; 1]];
     _dimpa := demo_dimpa; dropout_p := 0;
     _bias := [10; -50];
     _W_prob := [[1; 0]; [0; 1]; [0; 0]; [0; 1]] |}.

Definition demo_forward :=
  DIGRAC_forward Z Z.add Z.mul unit demo_conv_along demo_mm demo_relu
    demo_softmax_row demo_log_softmax_row demo_normalize_row demo_argmax_row
    unit demo_dropout demo_digrac tt demo_ei_along tt demo_x_s.

Example DIGRAC_forward_demo :
  demo_forward
  = (Some ([[1; 1; 1; 1]; [1; 1; 1; 1]],
           [[-17; -5]; [-49; -92]],
           [0; 1],
           [[34; 10]; [98; 184]]), tt).
Proof. reflexivity. Qed.

Lemma demo_mm_length a b : length (demo_mm a b) = length a.
Proof. apply length_fmap. Qed.

Lemma demo_relu_length a : length (demo_relu a) = length a.
Proof. apply length_fmap. Qed.

Lemma DIGRAC_forward_outputs_witness :
  (∀ a b, length (demo_mm a b) = length a)
  ∧ (∀ a, length (demo_relu a) = length a)
  ∧ (∀ p g a, length (demo_dropout p g a).1 = length a)
  ∧ length (_w_s Z (_dimpa Z demo_digrac)) = S (_hop Z (_dimpa Z demo_digrac))
  ∧ length (_w_t Z (_dimpa Z demo_digrac)) = S (_hop Z (_dimpa Z demo_digrac))
  ∧ (0 < _num_clusters Z demo_digrac)%nat
  ∧ let x_s := demo_mm (demo_relu (demo_mm demo_x_s (_w_s0 Z demo_digrac)))
                 (_w_s1 Z demo_digrac) in
    let x_t := demo_mm (demo_relu (demo_mm demo_x_s (_w_t0 Z demo_digrac)))
                 (_w_t1 Z demo_digrac) in
    ∃ z z' output pred prob,
      DIMPA_forward Z Z.add Z.mul unit demo_conv_along demo_dimpa x_s x_t
        demo_ei_along tt = Some z
      ∧ demo_forward = (Some (z', output, pred, prob), tt)
      ∧ length z = length demo_x_s
      ∧ length z' = length demo_x_s
      ∧ length output = length demo_x_s
      ∧ length pred = length demo_x_s
      ∧ length prob = length demo_x_s
      ∧ ∀ i z_i, z !! i = Some z_i →
          ∃ a_i, demo_mm z (_W_prob Z demo_digrac) !! i = Some a_i
            ∧ z' !! i = Some (demo_normalize_row z_i)
            ∧ output !! i
              = Some (demo_log_softmax_row (zip_with Z.add a_i (_bias Z demo_digrac)))
            ∧ pred !! i
              = Some (demo_argmax_row (zip_with Z.add a_i (_bias Z demo_digrac)))
            ∧ prob !! i
              = Some (demo_softmax_row (zip_with Z.add a_i (_bias Z demo_digrac))).
Proof.
  assert (∀ p g a, length (demo_dropout p g a).1 = length a) as Hd by done.
  assert (0 < _num_clusters Z demo_digrac)%nat as HK by (simpl; lia).
  split; [exact demo_mm_length|]. split; [exact demo_relu_length|].
  split; [exact Hd|]. split; [done|]. split; [done|]. split; [exact HK|].
  apply (DIGRAC_forward_outputs Z Z.add Z.mul unit demo_conv_along demo_mm
           demo_relu demo_softmax_row demo_log_softmax_row demo_normalize_row
           demo_argmax_row unit demo_dropout demo_conv_along_shape demo_digrac tt
           demo_ei_along tt demo_x_s demo_mm_length demo_relu_length Hd
           eq_refl eq_refl HK).
Defined.

End DIGRAC.

(** ** Softmax and arg-max in exact arithmetic

    The tensors of [DIGRAC.forward] hold 32-bit floats, whose rounding, NaN
    and overflow are outside this development, and the row kernels of softmax
    and arg-max are parameters of the model above.  This module records what
    their textbook definitions give over the real numbers. *)

Module Exact.

Import Stdlib.Reals.Reals Stdlib.micromega.Lra.
#[local] Open Scope R_scope.

Definition Rsum (l : list R) : R := foldr Rplus 0 l.

(** [softmax(x)_i = exp(x_i) / sum_j exp(x_j)], row by row. *)
Definition softmax_row (row : list R) : list R :=
  let s := Rsum (exp <$> row) in (fun x => exp x / s) <$> row.

Definition softmax (a : list (list R)) : list (list R) := softmax_row <$> a.

(** Index of the first maximal entry; [best] at index [besti] is the
    largest entry seen before index [i]. *)
Fixpoint argmax_from (best : R) (besti i : nat) (l : list R) : nat :=
  match l with
  | [] => besti
  | x :: l =>
      if Rlt_dec best x then argmax_from x i (S i) l
      else argmax_from best besti (S i) l
  end.

(** [torch.argmax] of one row; there is none for a row without entries. *)
Definition argmax_row (row : list R) : option nat :=
  match row with
  | [] => None
  | x :: l => Some (argmax_from x 0 1 l)
  end.

Lemma Rsum_cons x (l : list R) : Rsum (x :: l) = x + Rsum l.
Proof. reflexivity. Qed.

Lemma Rsum_exp_pos (row : list R) : row ≠ [] → 0 < Rsum (exp <$> row).
Proof.
  assert (∀ l : list R, 0 <= Rsum (exp <$> l)) as Hnn.
  { induction l as [|x l IH]; [cbn; lra|].
    rewrite fmap_cons, Rsum_cons. pose proof (exp_pos x). lra. }
  destruct row as [|x row]; [done|]. intros _.
  rewrite fmap_cons, Rsum_cons.
  pose proof (exp_pos x). pose proof (Hnn row). lra.
Qed.

Lemma Rsum_scale (c : R) (l : list R) :
  Rsum ((fun y => y / c) <$> l) = Rsum l / c.
Proof.
  induction l as [|y l IH]; [cbn; unfold Rdiv; ring|].
  rewrite fmap_cons, !Rsum_cons, IH. unfold Rdiv. ring.
Qed.

(** In exact arithmetic every non-empty softmax row sums to 1. *)
Lemma softmax_row_sum (row : list R) : row ≠ [] → Rsum (softmax_row row) = 1.
Proof.
  intros Hne. unfold softmax_row.
  pose proof (Rsum_exp_pos row Hne) as Hpos.
  change ((fun x => exp x / Rsum (exp <$> row)) <$> row)
    with (((fun y => y / Rsum (exp <$> row)) ∘ exp) <$> row).
  rewrite (list_fmap_compose exp (fun y => y / Rsum (exp <$> row)) row).
  rewrite Rsum_scale. apply Rinv_r. lra.
Qed.

Lemma argmax_from_mono (f : R → R) :
  (∀ a b, a < b → f a < f b) →
  ∀ l best besti i,
    argmax_from (f best) besti i (f <$> l) = argmax_from best besti i l.
Proof.
  intros Hf. induction l as [|x l IH]; intros best besti i; simpl; [done|].
  destruct (Rlt_dec best x) as [Hlt|Hge], (Rlt_dec (f best) (f x)) as [Hlt'|Hge'].
  - apply IH.
  - exfalso. apply Hge'. by apply Hf.
  - exfalso. destruct (Rtotal_order x best) as [H|[H|H]].
    + apply Hf in H. lra.
    + subst. lra.
    + contradiction.
  - apply IH.
Qed.

(** In exact arithmetic the arg-max of a row of logits is the arg-max of
    its softmax row. *)
Lemma argmax_softmax_row (row : list R) :
  argmax_row (softmax_row row) = argmax_row row.
Proof.
  destruct row as [|x l]; [done|].
  pose proof (Rsum_exp_pos (x :: l) ltac:(done)) as Hpos.
  unfold softmax_row. set (s := Rsum (exp <$> x :: l)) in *.
  cbn [fmap list_fmap argmax_row]. f_equal.
  apply (argmax_from_mono (fun y => exp y / s)).
  intros a b Hab. apply exp_increasing in Hab.
  unfold Rdiv. apply Rmult_lt_compat_r; [|done]. by apply Rinv_0_lt_compat.
Qed.

End Exact.
